(** * Search data of package tempofb: builders and readers

    A shallow embedding of [pkg/tempofb/searchdata_util.go]: the mutable
    search entry, the page builder, and the readers [Get], [Contains],
    [ContainsTag], [FindTag] and [binarySearch].

    Go's [int] is a 64-bit signed integer and is carried by [Z] with its
    wrap-around written out; [uint64] timestamps are carried by [N] (they
    are only compared, never added); [string] and [[]byte] are carried by
    [String.string], whose characters are the 256 byte values. *)

From Stdlib Require Import ZArith NArith List String Ascii Bool Lia Sorted.
Import ListNotations.
Local Open Scope Z_scope.

(** ** Outcomes of a Go call *)

(** A call returns normally, panics (a failed assertion of the buffer
    library, or a read outside a vector), or is still running when the
    fuel granted to a loop is used up. *)
Inductive outcome (A : Type) : Type :=
| Ok (a : A)
| Panic
| Timeout.
Arguments Ok {A} a.
Arguments Panic {A}.
Arguments Timeout {A}.

Definition obind {A B} (m : outcome A) (f : A -> outcome B) : outcome B :=
  match m with
  | Ok a => f a
  | Panic => Panic
  | Timeout => Timeout
  end.

Notation "x <- m ;; k" := (obind m (fun x => k))
  (at level 61, m at next level, right associativity).
Notation "' pat <- m ;; k" := (obind m (fun x => match x with pat => k end))
  (at level 61, pat pattern, m at next level, right associativity).

(** ** Machine integers *)

Module GoInt.
(** Reduction of a mathematical integer to Go's [int]. *)
Definition wrap (x : Z) : Z := (x + 2 ^ 63) mod 2 ^ 64 - 2 ^ 63.
(** The conversion [uint(x)]. *)
Definition to_uint (x : Z) : Z := x mod 2 ^ 64.
Definition add (x y : Z) : Z := wrap (x + y).
Definition max : Z := 2 ^ 63 - 1.
End GoInt.

(** ** Package bytes *)

Module bytes.

(** [bytes.Compare]: lexicographic comparison, -1, 0 or +1. *)
Definition Compare (a b : string) : Z :=
  match String.compare a b with
  | Eq => 0
  | Lt => -1
  | Gt => 1
  end.

Definition Equal (a b : string) : bool := String.eqb a b.

Fixpoint HasPrefix (s prefix : string) : bool :=
  match prefix with
  | EmptyString => true
  | String c prefix' =>
      match s with
      | EmptyString => false
      | String d s' => Ascii.eqb c d && HasPrefix s' prefix'
      end
  end.

(** [bytes.Contains(b, subslice)]: [subslice] occurs in [b]. *)
Fixpoint Contains (b subslice : string) : bool :=
  HasPrefix b subslice ||
  match b with
  | EmptyString => false
  | String _ b' => Contains b' subslice
  end.

Definition isUpper (c : ascii) : bool :=
  let n := N_of_ascii c in ((65 <=? n) && (n <=? 90))%N.

Definition lowerByte (c : ascii) : ascii :=
  if isUpper c then ascii_of_N (N_of_ascii c + 32) else c.

Fixpoint mapBytes (f : ascii -> ascii) (s : string) : string :=
  match s with
  | EmptyString => EmptyString
  | String c s' => String (f c) (mapBytes f s')
  end.

Fixpoint forallBytes (p : ascii -> bool) (s : string) : bool :=
  match s with
  | EmptyString => true
  | String c s' => p c && forallBytes p s'
  end.

(** All bytes are below [utf8.RuneSelf]. *)
Definition isASCII (s : string) : bool :=
  forallBytes (fun c => (N_of_ascii c <? 128)%N) s.

(** [bytes.Map(unicode.ToLower, s)], the path [bytes.ToLower] and
    [strings.ToLower] take on input with a byte of 0x80 or more.  It
    belongs to Go's Unicode tables and is a parameter of the
    development. *)
Class UnicodeTables : Type := unicodeToLower : string -> string.

(** [bytes.ToLower]: ASCII-only input is lower-cased byte by byte. *)
Definition ToLower `{UnicodeTables} (s : string) : string :=
  if isASCII s then mapBytes lowerByte s else unicodeToLower s.

End bytes.

(** ** Decoded views of the encoded records *)

(** A KeyValues record as its accessors present it: [Key()] and the
    value vector read by [Value(j)] for [j] below [ValueLength()]. *)
Record KeyValues : Type := mkKeyValues {
  kv_key : string;
  kv_value : list string
}.

(** A [*KeyValues] decode target.  [None] is the zero value
    [&KeyValues{}], which has no table behind it yet. *)
Definition KeyValuesBuf : Type := option KeyValues.

Definition nthZ {A} (l : list A) (j : Z) : option A :=
  if j <? 0 then None else nth_error l (Z.to_nat j).

Definition Key (kv : KeyValuesBuf) : outcome string :=
  match kv with
  | Some r => Ok (kv_key r)
  | None => Panic
  end.

Definition ValueLength (kv : KeyValuesBuf) : outcome Z :=
  match kv with
  | Some r => Ok (Z.of_nat (List.length (kv_value r)))
  | None => Panic
  end.

(** [Value(j)]; a position outside the vector is a read outside the
    record. *)
Definition Value (kv : KeyValuesBuf) (j : Z) : outcome string :=
  match kv with
  | Some r =>
      match nthZ (kv_value r) j with
      | Some v => Ok v
      | None => Panic
      end
  | None => Panic
  end.

(** The interface [FBTagContainer]: a container exposes a tag vector.
    [Tags(obj, j)] and [TagsLength()] are derived from it. *)
Class FBTagContainer (C : Type) : Type := {
  tag_vector : C -> list KeyValues
}.

Definition TagsLength {C} `{FBTagContainer C} (s : C) : Z :=
  Z.of_nat (List.length (tag_vector s)).

(** [s.Tags(obj, j)] decodes record [j] into [obj] and reports success;
    [obj] is returned with the boolean.  The callers below only pass
    positions inside the vector. *)
Definition Tags {C} `{FBTagContainer C} (s : C) (obj : KeyValuesBuf) (j : Z)
  : bool * KeyValuesBuf :=
  match nthZ (tag_vector s) j with
  | Some r => (true, Some r)
  | None => (false, obj)
  end.

Record SearchEntry : Type := mkSearchEntry {
  se_id : string;
  se_start_time_unix_nano : N;
  se_end_time_unix_nano : N;
  se_tags : list KeyValues
}.

Record SearchPage : Type := mkSearchPage {
  sp_entries : list SearchEntry;
  sp_tags : list KeyValues
}.

#[export] Instance SearchEntry_container : FBTagContainer SearchEntry :=
  {| tag_vector := se_tags |}.

#[export] Instance SearchPage_container : FBTagContainer SearchPage :=
  {| tag_vector := sp_tags |}.

(** ** binarySearch *)

(** The loop of [binarySearch].  [compare] is a closure: it may change
    state of type [S] and may panic.  A comparator result other than 0,
    -1, 1 matches no case of the switch and the loop goes round with [i]
    and [j] unchanged. *)
Fixpoint binarySearch_loop {S : Type} (fuel : nat)
    (compare : Z -> S -> outcome (Z * S)) (i j : Z) (st : S)
  : outcome (Z * S) :=
  if i <? j then
    match fuel with
    | O => Timeout
    | Datatypes.S fuel' =>
        let h := GoInt.wrap (Z.shiftr (GoInt.to_uint (GoInt.add i j)) 1) in
        '(c, st') <- compare h st ;;
        if c =? 0 then Ok (h, st')
        else if c =? -1 then binarySearch_loop fuel' compare i h st'
        else if c =? 1 then binarySearch_loop fuel' compare (GoInt.add h 1) j st'
        else binarySearch_loop fuel' compare i j st'
    end
  else Ok (-1, st).

Definition binarySearch {S : Type} (fuel : nat) (n : Z)
    (compare : Z -> S -> outcome (Z * S)) (st : S) : outcome (Z * S) :=
  binarySearch_loop fuel compare 0 n st.

(** ** FindTag, ContainsTag, Contains, Get *)

Section Readers.
Context {C : Type} `{FBTagContainer C}.

(** The closure [func(i int) int] that [FindTag] hands to
    [binarySearch]; its state is the decode target [kv]. *)
Definition FindTag_compare (s : C) (k : string) (i : Z) (kv : KeyValuesBuf)
  : outcome (Z * KeyValuesBuf) :=
  let '(_, kv) := Tags s kv i in
  key <- Key kv ;;
  Ok (bytes.Compare key k, kv).

(** [FindTag] returns [kv] or nil: the boolean is [true] for [kv]; the
    second component is what [kv] holds afterwards.  The tri-state
    comparator makes the range shrink at every probe, so
    [TagsLength()] probes are all the loop can take. *)
Definition FindTag (s : C) (kv : KeyValuesBuf) (k : string)
  : outcome (bool * KeyValuesBuf) :=
  '(idx, kv) <- binarySearch (Z.to_nat (TagsLength s)) (TagsLength s)
                  (FindTag_compare s k) kv ;;
  if idx >=? 0 then Ok (true, kv) else Ok (false, kv).

(** The loop [for j := 0; j < l; j++] of [ContainsTag]; [todo] is
    [l - j]. *)
Fixpoint ContainsTag_loop (todo : nat) (kv : KeyValuesBuf) (v : string) (j : Z)
  : outcome bool :=
  match todo with
  | O => Ok false
  | Datatypes.S todo' =>
      val <- Value kv j ;;
      if bytes.Contains val v then Ok true
      else ContainsTag_loop todo' kv v (j + 1)
  end.

Definition ContainsTag (s : C) (kv : KeyValuesBuf) (k v : string)
  : outcome (bool * KeyValuesBuf) :=
  '(found, kv) <- FindTag s kv k ;;
  if found then
    l <- ValueLength kv ;;
    b <- ContainsTag_loop (Z.to_nat l) kv v 0 ;;
    Ok (b, kv)
  else Ok (false, kv).
End Readers.

Definition Contains (s : SearchEntry) (k v : string) (buffer : KeyValuesBuf)
  : outcome (bool * KeyValuesBuf) :=
  ContainsTag s buffer k v.

Section Get.
Context `{bytes.UnicodeTables}.

(** The loop [for i := 0; i < s.TagsLength(); i++] of [Get]; [todo] is
    [s.TagsLength() - i]. *)
Fixpoint Get_loop (s : SearchEntry) (kb : string) (todo : nat) (i : Z)
    (kv : KeyValuesBuf) : outcome string :=
  match todo with
  | O => Ok EmptyString
  | Datatypes.S todo' =>
      let '(_, kv) := Tags s kv i in
      key <- Key kv ;;
      if bytes.Equal key kb then Value kv 0
      else Get_loop s kb todo' (i + 1) kv
  end.

Definition Get (s : SearchEntry) (k : string) : outcome string :=
  let kv : KeyValuesBuf := None in
  let kb := bytes.ToLower k in
  Get_loop s kb (Z.to_nat (TagsLength s)) 0 kv.

(** The lookup as the specification words it: lower-case the key, run
    the binary search of [FindTag], return the first value of the
    match, or the empty string. *)
Definition Get_by_search (s : SearchEntry) (k : string) : outcome string :=
  let kb := bytes.ToLower k in
  '(found, kv) <- FindTag s None kb ;;
  if found then Value kv 0 else Ok EmptyString.
End Get.

(** ** The buffer builder (package flatbuffers) *)

(** The builder of the flatbuffers library, at the level of the objects
    it lays out.  A finished object is filed under the offset the
    builder returned for it.  [offset] counts the payload bytes placed so
    far (alignment padding and vtables are left out, and the buffer grows
    without bound).  The library builds a buffer back to front: a value
    prepended later is read earlier, so a vector reads in reverse of the
    order of the [PrependUOffsetT] calls. *)
Module flatbuffers.

Definition UOffsetT : Type := Z.

Inductive field : Type :=
| FOffset (o : UOffsetT)
| FUint64 (n : N).

Inductive object : Type :=
| ByteString (s : string)
| Vector (elems : list UOffsetT)
| Table (slots : list (Z * field)).

Record Builder : Type := mkBuilder {
  objects : list (UOffsetT * object);
  offset : UOffsetT;
  nested : bool;
  finished : bool;
  vector : list UOffsetT;
  slots : list (Z * field);
  root : option UOffsetT
}.

(** The finished bytes: the objects and the root offset at their head. *)
Record Buffer : Type := mkBuffer {
  buf_objects : list (UOffsetT * object);
  buf_root : option UOffsetT
}.

Definition NewBuilder (initialSize : Z) : Builder :=
  mkBuilder [] 0 false false [] [] None.

Definition Reset (b : Builder) : Builder :=
  mkBuilder [] 0 false false [] [] None.

Definition Offset (b : Builder) : UOffsetT := offset b.

Definition file (o : UOffsetT) (x : object) (nest : bool) (b : Builder)
  : Builder :=
  mkBuilder ((o, x) :: objects b) o nest (finished b) (vector b) (slots b)
    (root b).

Definition CreateByteString (b : Builder) (s : string)
  : outcome (UOffsetT * Builder) :=
  if nested b then Panic
  else
    let o := offset b + Z.of_nat (String.length s) + 1 + 4 in
    Ok (o, file o (ByteString s) false b).

Definition StartVector (b : Builder) (elemSize numElems alignment : Z)
  : outcome (UOffsetT * Builder) :=
  if nested b then Panic
  else
    Ok (offset b,
        mkBuilder (objects b) (offset b) true (finished b) [] (slots b)
          (root b)).

(** [PrependUOffsetT] panics on an offset beyond the bytes written. *)
Definition PrependUOffsetT (b : Builder) (off : UOffsetT) : outcome Builder :=
  if off <=? offset b then
    Ok (mkBuilder (objects b) (offset b + 4) (nested b) (finished b)
          (off :: vector b) (slots b) (root b))
  else Panic.

Definition EndVector (b : Builder) (vectorNumElems : Z)
  : outcome (UOffsetT * Builder) :=
  if nested b then
    let o := offset b + 4 in
    Ok (o, file o (Vector (firstn (Z.to_nat vectorNumElems) (vector b)))
             false b)
  else Panic.

Definition StartObject (b : Builder) (numfields : Z) : outcome Builder :=
  if nested b then Panic
  else
    Ok (mkBuilder (objects b) (offset b) true (finished b) (vector b) []
          (root b)).

Definition Slot (b : Builder) (slotnum : Z) (x : field) : Builder :=
  mkBuilder (objects b) (offset b) (nested b) (finished b) (vector b)
    ((slotnum, x) :: slots b) (root b).

Definition PrependUOffsetTSlot (b : Builder) (o : Z) (x d : UOffsetT)
  : outcome Builder :=
  if x =? d then Ok b
  else
    b <- PrependUOffsetT b x ;;
    Ok (Slot b o (FOffset x)).

Definition PrependUint64Slot (b : Builder) (o : Z) (x d : N)
  : outcome Builder :=
  if (x =? d)%N then Ok b
  else
    Ok (Slot (mkBuilder (objects b) (offset b + 8) (nested b) (finished b)
                (vector b) (slots b) (root b)) o (FUint64 x)).

Definition EndObject (b : Builder) : outcome (UOffsetT * Builder) :=
  if nested b then
    let o := offset b + 4 in
    Ok (o, file o (Table (slots b)) false b)
  else Panic.

Definition Finish (b : Builder) (rootTable : UOffsetT) : outcome Builder :=
  if nested b then Panic
  else
    b <- PrependUOffsetT b rootTable ;;
    Ok (mkBuilder (objects b) (offset b) (nested b) true (vector b)
          (slots b) (Some rootTable)).

Definition FinishedBytes (b : Builder) : outcome Buffer :=
  if finished b then Ok (mkBuffer (objects b) (root b)) else Panic.

(** The loop [for _, off := range offs { b.PrependUOffsetT(off) }]. *)
Fixpoint PrependAll (b : Builder) (offs : list UOffsetT) : outcome Builder :=
  match offs with
  | [] => Ok b
  | off :: offs' =>
      b <- PrependUOffsetT b off ;;
      PrependAll b offs'
  end.

(** *** Reading a finished buffer *)

Fixpoint lookup {A} (key : Z) (l : list (Z * A)) : option A :=
  match l with
  | [] => None
  | (k, x) :: l' => if k =? key then Some x else lookup key l'
  end.

Definition readString (buf : Buffer) (o : UOffsetT) : outcome string :=
  match lookup o (buf_objects buf) with
  | Some (ByteString s) => Ok s
  | _ => Panic
  end.

Definition readVector (buf : Buffer) (o : UOffsetT)
  : outcome (list UOffsetT) :=
  match lookup o (buf_objects buf) with
  | Some (Vector v) => Ok v
  | _ => Panic
  end.

Definition readTable (buf : Buffer) (o : UOffsetT)
  : outcome (list (Z * field)) :=
  match lookup o (buf_objects buf) with
  | Some (Table t) => Ok t
  | _ => Panic
  end.

Fixpoint mapM {A B} (f : A -> outcome B) (l : list A) : outcome (list B) :=
  match l with
  | [] => Ok []
  | a :: l' =>
      x <- f a ;;
      xs <- mapM f l' ;;
      Ok (x :: xs)
  end.

End flatbuffers.

Import flatbuffers.

(** ** The generated accessors *)

(** Modelled from the spec: the code generated from the schema (KeyValues,
    SearchEntry, SearchPage) is not among the sources.  Field numbers
    follow the order of section 6: KeyValue [{key, value}], Encoded Entry
    [{id, start_time_unix_nano, end_time_unix_nano, tags}], Encoded Page
    [{entries, tags}].  A field that was never written reads as its
    default. *)
Definition KeyValuesStart (b : Builder) := StartObject b 2.
Definition KeyValuesAddKey (b : Builder) (key : UOffsetT) :=
  PrependUOffsetTSlot b 0 key 0.
Definition KeyValuesAddValue (b : Builder) (value : UOffsetT) :=
  PrependUOffsetTSlot b 1 value 0.
Definition KeyValuesStartValueVector (b : Builder) (numElems : Z) :=
  StartVector b 4 numElems 4.
Definition KeyValuesEnd (b : Builder) := EndObject b.

Definition SearchEntryStart (b : Builder) := StartObject b 4.
Definition SearchEntryAddId (b : Builder) (id : UOffsetT) :=
  PrependUOffsetTSlot b 0 id 0.
Definition SearchEntryAddStartTimeUnixNano (b : Builder) (t : N) :=
  PrependUint64Slot b 1 t 0.
Definition SearchEntryAddEndTimeUnixNano (b : Builder) (t : N) :=
  PrependUint64Slot b 2 t 0.
Definition SearchEntryAddTags (b : Builder) (tags : UOffsetT) :=
  PrependUOffsetTSlot b 3 tags 0.
Definition SearchEntryStartTagsVector (b : Builder) (numElems : Z) :=
  StartVector b 4 numElems 4.
Definition SearchEntryEnd (b : Builder) := EndObject b.

Definition SearchPageStart (b : Builder) := StartObject b 2.
Definition SearchPageAddEntries (b : Builder) (entries : UOffsetT) :=
  PrependUOffsetTSlot b 0 entries 0.
Definition SearchPageAddTags (b : Builder) (tags : UOffsetT) :=
  PrependUOffsetTSlot b 1 tags 0.
Definition SearchPageStartEntriesVector (b : Builder) (numElems : Z) :=
  StartVector b 4 numElems 4.
Definition SearchPageEnd (b : Builder) := EndObject b.

Definition offsetField (t : list (Z * field)) (slot : Z) : option UOffsetT :=
  match lookup slot t with
  | Some (FOffset o) => Some o
  | _ => None
  end.

Definition uint64Field (t : list (Z * field)) (slot : Z) : N :=
  match lookup slot t with
  | Some (FUint64 n) => n
  | _ => 0%N
  end.

Definition readStringField (buf : Buffer) (t : list (Z * field)) (slot : Z)
  : outcome string :=
  match offsetField t slot with
  | Some o => readString buf o
  | None => Ok EmptyString
  end.

Definition readVectorField {A} (buf : Buffer) (t : list (Z * field))
    (slot : Z) (elem : UOffsetT -> outcome A) : outcome (list A) :=
  match offsetField t slot with
  | Some o =>
      v <- readVector buf o ;;
      mapM elem v
  | None => Ok []
  end.

(** Modelled from the spec: the view of a KeyValues table at offset [o]. *)
Definition readKeyValues (buf : Buffer) (o : UOffsetT) : outcome KeyValues :=
  t <- readTable buf o ;;
  key <- readStringField buf t 0 ;;
  value <- readVectorField buf t 1 (readString buf) ;;
  Ok (mkKeyValues key value).

(** Modelled from the spec: the view of a SearchEntry table at offset [o]. *)
Definition readSearchEntry (buf : Buffer) (o : UOffsetT) : outcome SearchEntry :=
  t <- readTable buf o ;;
  id <- readStringField buf t 0 ;;
  tags <- readVectorField buf t 3 (readKeyValues buf) ;;
  Ok (mkSearchEntry id (uint64Field t 1) (uint64Field t 2) tags).

(** Modelled from the spec: the view of a SearchPage table at offset [o]. *)
Definition readSearchPage (buf : Buffer) (o : UOffsetT) : outcome SearchPage :=
  t <- readTable buf o ;;
  entries <- readVectorField buf t 0 (readSearchEntry buf) ;;
  tags <- readVectorField buf t 1 (readKeyValues buf) ;;
  Ok (mkSearchPage entries tags).

(** Modelled from the spec: [GetRootAsSearchEntry(buf, 0)]. *)
Definition GetRootAsSearchEntry (buf : Buffer) : outcome SearchEntry :=
  match buf_root buf with
  | Some o => readSearchEntry buf o
  | None => Panic
  end.

(** Modelled from the spec: [GetRootAsSearchPage(buf, 0)]. *)
Definition GetRootAsSearchPage (buf : Buffer) : outcome SearchPage :=
  match buf_root buf with
  | Some o => readSearchPage buf o
  | None => Panic
  end.

Definition NewSearchEntryFromBytes (b : Buffer) : outcome SearchEntry :=
  GetRootAsSearchEntry b.

(** The method [Reset(b)] of [SearchEntry]: the root offset is read from the head of
    [b] and the view [s] is pointed at it; what [s] viewed before is
    dropped. *)
Definition SearchEntry_Reset (s : SearchEntry) (b : Buffer)
  : outcome SearchEntry :=
  match buf_root b with
  | Some n => readSearchEntry b n
  | None => Panic
  end.

(** ** The Tag Set *)

(** Modelled from the spec: the Tag Set [SearchDataMap] (its file is not
    among the sources): a mapping from a tag key to its distinct values,
    held in ascending order of key and, under a key, of value, so that
    iteration is deterministic. *)
Definition SearchDataMap : Type := list (string * list string).

(** Modelled from the spec: [NewSearchDataMap], the empty Tag Set. *)
Definition NewSearchDataMap : SearchDataMap := [].

(** Modelled from the spec: a value joins the values of its key unless it
    is already there. *)
Fixpoint addValue (vs : list string) (v : string) : list string :=
  match vs with
  | [] => [v]
  | w :: vs' =>
      match String.compare v w with
      | Lt => v :: vs
      | Eq => vs
      | Gt => w :: addValue vs' v
      end
  end.

(** Modelled from the spec: [add(key, value)] inserts the pair if absent. *)
Fixpoint SearchDataMap_Add (s : SearchDataMap) (k v : string) : SearchDataMap :=
  match s with
  | [] => [(k, [v])]
  | (k', vs) :: s' =>
      match String.compare k k' with
      | Lt => (k, [v]) :: s
      | Eq => (k', addValue vs v) :: s'
      | Gt => (k', vs) :: SearchDataMap_Add s' k v
      end
  end.

(** The pairs of a Tag Set in iteration order. *)
Definition SearchDataMap_pairs (s : SearchDataMap) : list (string * string) :=
  flat_map (fun e => map (pair (fst e)) (snd e)) s.

(** Modelled from the spec: [range(visit)] calls [visit(key, value)] for
    every pair, by key and then by value; [acc] is the state the visitor
    updates. *)
Definition SearchDataMap_Range {A} (s : SearchDataMap)
    (f : string -> string -> A -> A) (acc : A) : A :=
  fold_left (fun acc kv => f (fst kv) (snd kv) acc) (SearchDataMap_pairs s) acc.

Section Writing.
Context `{bytes.UnicodeTables}.

Fixpoint createStrings (b : Builder) (vs : list string)
  : outcome (list UOffsetT * Builder) :=
  match vs with
  | [] => Ok ([], b)
  | v :: vs' =>
      '(o, b) <- CreateByteString b v ;;
      '(os, b) <- createStrings b vs' ;;
      Ok (o :: os, b)
  end.

(** Modelled from the spec: one Key-Value record; the key is written
    lower-cased, the values as they are. *)
Definition writeKeyValues (b : Builder) (k : string) (vs : list string)
  : outcome (UOffsetT * Builder) :=
  '(ko, b) <- CreateByteString b (bytes.ToLower k) ;;
  '(vos, b) <- createStrings b vs ;;
  let n := Z.of_nat (List.length vos) in
  '(_, b) <- KeyValuesStartValueVector b n ;;
  b <- PrependAll b vos ;;
  '(vo, b) <- EndVector b n ;;
  b <- KeyValuesStart b ;;
  b <- KeyValuesAddKey b ko ;;
  b <- KeyValuesAddValue b vo ;;
  KeyValuesEnd b.

Fixpoint writeAllKeyValues (b : Builder) (s : SearchDataMap)
  : outcome (list UOffsetT * Builder) :=
  match s with
  | [] => Ok ([], b)
  | (k, vs) :: s' =>
      '(o, b) <- writeKeyValues b k vs ;;
      '(os, b) <- writeAllKeyValues b s' ;;
      Ok (o :: os, b)
  end.

(** Modelled from the spec: [write(buffer) -> offset] iterates the Tag
    Set in ascending order and relies on the reversal of the buffer for
    the descending order of the encoded vector. *)
Definition SearchDataMap_WriteToBuilder (s : SearchDataMap) (b : Builder)
  : outcome (UOffsetT * Builder) :=
  '(offsets, b) <- writeAllKeyValues b s ;;
  let n := Z.of_nat (List.length offsets) in
  '(_, b) <- SearchEntryStartTagsVector b n ;;
  b <- PrependAll b offsets ;;
  EndVector b n.

(** ** SearchEntryMutable *)

(** [Tags_] is the field [Tags]; [None] is a nil map. *)
Record SearchEntryMutable : Type := mkSearchEntryMutable {
  TraceID : string;
  Tags_ : option SearchDataMap;
  StartTimeUnixNano : N;
  EndTimeUnixNano : N
}.

Definition setTags (s : SearchEntryMutable) (m : SearchDataMap) :=
  mkSearchEntryMutable (TraceID s) (Some m) (StartTimeUnixNano s)
    (EndTimeUnixNano s).

Definition tagsOrNew (s : SearchEntryMutable) : SearchDataMap :=
  match Tags_ s with
  | None => NewSearchDataMap
  | Some m => m
  end.

Definition AddTag (s : SearchEntryMutable) (k v : string) : SearchEntryMutable :=
  setTags s (SearchDataMap_Add (tagsOrNew s) k v).

Definition SetStartTimeUnixNano (s : SearchEntryMutable) (t : N)
  : SearchEntryMutable :=
  if ((0 <? t) && ((StartTimeUnixNano s =? 0) || (t <? StartTimeUnixNano s)))%N
  then mkSearchEntryMutable (TraceID s) (Tags_ s) t (EndTimeUnixNano s)
  else s.

Definition SetEndTimeUnixNano (s : SearchEntryMutable) (t : N)
  : SearchEntryMutable :=
  if ((0 <? t) && (EndTimeUnixNano s <? t))%N
  then mkSearchEntryMutable (TraceID s) (Tags_ s) (StartTimeUnixNano s) t
  else s.

(** [WriteToBuilder] changes the builder and, when [Tags] is nil, the
    entry; both are returned with the offset. *)
Definition WriteToBuilder (s : SearchEntryMutable) (b : Builder)
  : outcome (UOffsetT * SearchEntryMutable * Builder) :=
  let s := match Tags_ s with
           | None => setTags s NewSearchDataMap
           | Some _ => s
           end in
  '(idOffset, b) <- CreateByteString b (TraceID s) ;;
  '(tagOffset, b) <- SearchDataMap_WriteToBuilder (tagsOrNew s) b ;;
  b <- SearchEntryStart b ;;
  b <- SearchEntryAddId b idOffset ;;
  b <- SearchEntryAddStartTimeUnixNano b (StartTimeUnixNano s) ;;
  b <- SearchEntryAddEndTimeUnixNano b (EndTimeUnixNano s) ;;
  b <- SearchEntryAddTags b tagOffset ;;
  '(o, b) <- SearchEntryEnd b ;;
  Ok (o, s, b).

Definition ToBytes (s : SearchEntryMutable)
  : outcome (Buffer * SearchEntryMutable) :=
  let b := NewBuilder 2048 in
  '(offset, s, b) <- WriteToBuilder s b ;;
  b <- flatbuffers.Finish b offset ;;
  buf <- FinishedBytes b ;;
  Ok (buf, s).

(** ** SearchPageBuilder *)

Record SearchPageBuilder : Type := mkSearchPageBuilder {
  builder : Builder;
  allTags : SearchDataMap;
  pageEntries : list UOffsetT
}.

Definition NewSearchPageBuilder : SearchPageBuilder :=
  mkSearchPageBuilder (NewBuilder 1024) NewSearchDataMap [].

(** The difference of two [UOffsetT], a 32-bit unsigned integer. *)
Definition subUOffsetT (x y : UOffsetT) : Z := (x - y) mod 2 ^ 32.

(** [AddData] returns the bytes written, with the entry and the page
    builder as the call leaves them. *)
Definition AddData (b : SearchPageBuilder) (data : SearchEntryMutable)
  : outcome (Z * SearchEntryMutable * SearchPageBuilder) :=
  let allTags' :=
    match Tags_ data with
    | Some tags =>
        SearchDataMap_Range tags (fun k v all => SearchDataMap_Add all k v)
          (allTags b)
    | None => allTags b
    end in
  let oldOffset := Offset (builder b) in
  '(offset, data, fb) <- WriteToBuilder data (builder b) ;;
  let pageEntries' := pageEntries b ++ [offset] in
  Ok (subUOffsetT offset oldOffset, data,
      mkSearchPageBuilder fb allTags' pageEntries').

Definition Finish (b : SearchPageBuilder)
  : outcome (Buffer * SearchPageBuilder) :=
  let n := Z.of_nat (List.length (pageEntries b)) in
  '(_, fb) <- SearchPageStartEntriesVector (builder b) n ;;
  fb <- PrependAll fb (pageEntries b) ;;
  '(entryVector, fb) <- EndVector fb n ;;
  '(tagOffset, fb) <- SearchDataMap_WriteToBuilder (allTags b) fb ;;
  fb <- SearchPageStart fb ;;
  fb <- SearchPageAddEntries fb entryVector ;;
  fb <- SearchPageAddTags fb tagOffset ;;
  '(batch, fb) <- SearchPageEnd fb ;;
  fb <- flatbuffers.Finish fb batch ;;
  buf <- FinishedBytes fb ;;
  Ok (buf, mkSearchPageBuilder fb (allTags b) (pageEntries b)).

Definition Reset (b : SearchPageBuilder) : SearchPageBuilder :=
  mkSearchPageBuilder (flatbuffers.Reset (builder b)) NewSearchDataMap [].

(** A run of [AddData] calls, one per entry, in order. *)
Fixpoint AddAll (b : SearchPageBuilder) (entries : list SearchEntryMutable)
  : outcome SearchPageBuilder :=
  match entries with
  | [] => Ok b
  | data :: entries' =>
      '(_, _, b) <- AddData b data ;;
      AddAll b entries'
  end.
End Writing.

(** The calls a caller can make on a [SearchEntryMutable]. *)
Inductive call : Type :=
| CallAddTag (k v : string)
| CallSetStartTimeUnixNano (t : N)
| CallSetEndTimeUnixNano (t : N).

Definition do_call (s : SearchEntryMutable) (c : call) : SearchEntryMutable :=
  match c with
  | CallAddTag k v => AddTag s k v
  | CallSetStartTimeUnixNano t => SetStartTimeUnixNano s t
  | CallSetEndTimeUnixNano t => SetEndTimeUnixNano s t
  end.

Definition do_calls (s : SearchEntryMutable) (cs : list call) : SearchEntryMutable :=
  fold_left do_call cs s.

(** ** Validity of an encoded tag vector *)

(** The keys, read from position 0 upwards, are strictly descending. *)
Fixpoint descending (l : list KeyValues) : bool :=
  match l with
  | [] => true
  | r :: l' =>
      match l' with
      | [] => true
      | r' :: _ => (bytes.Compare (kv_key r) (kv_key r') =? 1) && descending l'
      end
  end.

(** A key as the writer leaves it has no upper-case byte. *)
Definition lowercased (key : string) : bool :=
  bytes.forallBytes (fun c => negb (bytes.isUpper c)) key.

Definition key_at {C} `{FBTagContainer C} (s : C) (i : Z) : string :=
  match nthZ (tag_vector s) i with
  | Some r => kv_key r
  | None => EmptyString
  end.

(** A comparator over positions [0 .. n-1] that is tri-state and agrees
    with a strict total order: before a position where the target is
    "at or before", every position reports "after". *)
Definition tri_state (n : Z) (c : Z -> Z) : Prop :=
  forall i, 0 <= i < n -> c i = -1 \/ c i = 0 \/ c i = 1.

Definition ordered (n : Z) (c : Z -> Z) : Prop :=
  forall i j, 0 <= i -> i < j -> j < n -> c i = 1 \/ c j = -1.

(** [v] occurs in [s] as a run of consecutive bytes. *)
Definition substring_of (v s : string) : Prop :=
  exists pre post, s = (pre ++ v ++ post)%string.

(** The container has a tag with key [k], one of whose values contains
    [v]. *)
Definition has_tag_containing {C} `{FBTagContainer C} (s : C) (k v : string)
  : Prop :=
  exists r val,
    In r (tag_vector s) /\ kv_key r = k /\ In val (kv_value r) /\
    substring_of v val.

Definition has_key {C} `{FBTagContainer C} (s : C) (k : string) : Prop :=
  exists r, In r (tag_vector s) /\ kv_key r = k.

(** Membership of a pair in a Tag Set. *)
Definition has_pair (s : SearchDataMap) (k v : string) : Prop :=
  exists vs, In (k, vs) s /\ In v vs.

Definition str_lt (a b : string) : Prop := String.compare a b = Lt.

(** A Tag Set in its order: keys strictly ascending, and the values of a
    key strictly ascending. *)
Definition tagset_sorted (s : SearchDataMap) : Prop :=
  StronglySorted str_lt (map fst s) /\
  Forall (fun e => StronglySorted str_lt (snd e)) s.

(** Keys that lower-casing leaves as they are. *)
Definition lower_keys `{bytes.UnicodeTables} (s : SearchDataMap) : Prop :=
  Forall (fun e => bytes.ToLower (fst e) = fst e) s.

(** The Tag Set of an entry is in its order and its keys are lower-case:
    what [AddTag] calls with lower-case keys build. *)
Definition lower_sorted_tags `{bytes.UnicodeTables} (data : SearchEntryMutable)
  : Prop :=
  tagset_sorted (tagsOrNew data) /\ lower_keys (tagsOrNew data).

(** [m] is the smallest non-zero element of [l], or 0 when [l] has
    none; likewise the largest. *)
Definition is_min_nonzero (l : list N) (m : N) : Prop :=
  (m = 0%N /\ forall t, In t l -> t = 0%N) \/
  (m <> 0%N /\ In m l /\ forall t, In t l -> t <> 0%N -> (m <= t)%N).

Definition is_max_nonzero (l : list N) (m : N) : Prop :=
  (m = 0%N /\ forall t, In t l -> t = 0%N) \/
  (m <> 0%N /\ In m l /\ forall t, In t l -> (t <= m)%N).

Definition start_args (cs : list call) : list N :=
  flat_map (fun c => match c with CallSetStartTimeUnixNano t => [t] | _ => [] end) cs.

Definition end_args (cs : list call) : list N :=
  flat_map (fun c => match c with CallSetEndTimeUnixNano t => [t] | _ => [] end) cs.

(** The stand-in Unicode table of the examples, which are ASCII: it is
    never consulted on them. *)
Definition asciiTables : bytes.UnicodeTables := fun s => s.

Definition kv (k : string) (vs : list string) : KeyValues := mkKeyValues k vs.

(** Two mutable entries that share the key "k". *)
Definition entry_first : SearchEntryMutable :=
  AddTag (mkSearchEntryMutable "first" None 0 0) "k" "v1".

Definition entry_second : SearchEntryMutable :=
  AddTag (mkSearchEntryMutable "second" None 0 0) "k" "v2".

(** An entry whose tag vector reads [host]. *)
Definition entry_host : SearchEntry :=
  mkSearchEntry "id" 0 0 [kv "host" ["example.com"%string]].


(** An entry whose tag vector reads [c, b, a]. *)
Definition entry_cba : SearchEntry :=
  mkSearchEntry "id" 0 0
    [kv "c" ["3"%string]; kv "b" ["2"%string]; kv "a" ["1"%string]].

(** ** Invariants of the builder and views of what it wrote *)

(** Every object is filed under a positive offset that the builder has
    reached. *)
Definition wf (b : Builder) : Prop :=
  0 <= offset b /\
  forall o x, lookup o (objects b) = Some x -> 0 < o <= offset b.

(** What [objs] files, [objs'] files under the same offset. *)
Definition extends (objs objs' : list (UOffsetT * object)) : Prop :=
  forall o x, lookup o objs = Some x -> lookup o objs' = Some x.

(** [b'] is a later state of [b], outside any vector or table. *)
Definition grows (b b' : Builder) : Prop :=
  wf b' /\ nested b' = false /\ offset b <= offset b' /\
  extends (objects b) (objects b').

(** The bytes of the builder as a reader would see them. *)
Definition snapshot (b : Builder) : Buffer := mkBuffer (objects b) (root b).

Section Views.
Context `{bytes.UnicodeTables}.

(** The record a reader finds for a key of a Tag Set and its values. *)
Definition kv_view (e : string * list string) : KeyValues :=
  mkKeyValues (bytes.ToLower (fst e)) (rev (snd e)).

(** The tag vector a reader finds for a Tag Set. *)
Definition tags_view (s : SearchDataMap) : list KeyValues :=
  rev (map kv_view s).

(** The entry a reader finds for a mutable entry. *)
Definition entry_view (s : SearchEntryMutable) : SearchEntry :=
  mkSearchEntry (TraceID s) (StartTimeUnixNano s) (EndTimeUnixNano s)
    (tags_view (tagsOrNew s)).

(** The page builder is between calls, and its recorded offsets are
    those of the entries [views], in the order they were added. *)
Definition page_inv (b : SearchPageBuilder) (views : list SearchEntry) : Prop :=
  wf (builder b) /\ nested (builder b) = false /\
  Forall2 (fun o v => 0 < o <= offset (builder b) /\
                      readSearchEntry (snapshot (builder b)) o = Ok v)
    (pageEntries b) views.

(** The page-wide Tag Set after the pairs of [data] were added to it. *)
Definition mergeTags (all : SearchDataMap) (data : SearchEntryMutable)
  : SearchDataMap :=
  match Tags_ data with
  | Some tags =>
      SearchDataMap_Range tags (fun k v all => SearchDataMap_Add all k v) all
  | None => all
  end.

(** The page a reader finds after [entries] were added to [b] and the
    page was finished. *)
Definition finished_page (b : SearchPageBuilder)
    (entries : list SearchEntryMutable) : outcome SearchPage :=
  b <- AddAll b entries ;;
  '(buf, _) <- Finish b ;;
  GetRootAsSearchPage buf.

(** The same, when the page was already finished once after [before]
    and not reset. *)
Definition refinished_page (before after : list SearchEntryMutable)
  : outcome SearchPage :=
  b <- AddAll NewSearchPageBuilder before ;;
  '(_, b) <- Finish b ;;
  finished_page b after.

(** The pairs of all the entries of a list. *)
Definition pair_of_entries (entries : list SearchEntryMutable) (k v : string)
  : Prop :=
  exists data, In data entries /\ has_pair (tagsOrNew data) k v.
End Views.

(** * Properties *)

(** ** Byte strings *)

Lemma string_compare_refl s : String.compare s s = Eq.
Proof.
  induction s as [|c s IH]; simpl; [reflexivity|].
  unfold Ascii.compare. now rewrite N.compare_refl.
Qed.

Lemma ascii_compare_trans c1 c2 c3 o :
  Ascii.compare c1 c2 = o -> Ascii.compare c2 c3 = o -> Ascii.compare c1 c3 = o.
Proof.
  unfold Ascii.compare. intros H12 H23.
  destruct o.
  - apply N.compare_eq_iff in H12, H23. apply N.compare_eq_iff. congruence.
  - rewrite N.compare_lt_iff in *. lia.
  - rewrite N.compare_gt_iff in *. lia.
Qed.

Lemma string_compare_gt_trans s1 : forall s2 s3,
  String.compare s1 s2 = Gt -> String.compare s2 s3 = Gt ->
  String.compare s1 s3 = Gt.
Proof.
  induction s1 as [|c1 s1 IH]; intros [|c2 s2] [|c3 s3]; simpl;
    try discriminate; try reflexivity.
  destruct (Ascii.compare c1 c2) eqn:E12; try discriminate;
    destruct (Ascii.compare c2 c3) eqn:E23; try discriminate; intros H12 H23.
  - rewrite (ascii_compare_trans _ _ _ _ E12 E23). now apply IH with s2.
  - apply Ascii.compare_eq_iff in E12. subst c2. now rewrite E23.
  - apply Ascii.compare_eq_iff in E23. subst c3. now rewrite E12.
  - now rewrite (ascii_compare_trans _ _ _ _ E12 E23).
Qed.

Lemma Compare_tri_state a b :
  bytes.Compare a b = -1 \/ bytes.Compare a b = 0 \/ bytes.Compare a b = 1.
Proof. unfold bytes.Compare. destruct (String.compare a b); auto. Qed.

Lemma Compare_eq_iff a b : bytes.Compare a b = 0 <-> a = b.
Proof.
  unfold bytes.Compare. split.
  - destruct (String.compare a b) eqn:E; try discriminate.
    intros _. now apply String.compare_eq_iff.
  - intros ->. now rewrite string_compare_refl.
Qed.

Lemma Compare_antisym a b : bytes.Compare a b = - bytes.Compare b a.
Proof.
  unfold bytes.Compare. rewrite String.compare_antisym.
  destruct (String.compare b a); reflexivity.
Qed.

Lemma Compare_gt_trans a b c :
  bytes.Compare a b = 1 -> bytes.Compare b c = 1 -> bytes.Compare a c = 1.
Proof.
  unfold bytes.Compare.
  destruct (String.compare a b) eqn:E1; try discriminate.
  destruct (String.compare b c) eqn:E2; try discriminate.
  now rewrite (string_compare_gt_trans _ _ _ E1 E2).
Qed.

Lemma Equal_eq a b : bytes.Equal a b = true <-> a = b.
Proof. apply String.eqb_eq. Qed.

Lemma HasPrefix_iff s : forall p,
  bytes.HasPrefix s p = true <-> exists post, s = (p ++ post)%string.
Proof.
  induction s as [|d s IH]; intros [|c p]; simpl.
  - split; [now exists EmptyString|reflexivity].
  - split; [discriminate|intros [post Hp]; discriminate].
  - split; [now exists (String d s)|reflexivity].
  - rewrite andb_true_iff, Ascii.eqb_eq, IH. split.
    + intros [-> [post ->]]. now exists post.
    + intros [post Hp]. injection Hp as -> ->. split; [reflexivity|now exists post].
Qed.

Lemma Contains_iff s : forall v,
  bytes.Contains s v = true <-> substring_of v s.
Proof.
  unfold substring_of.
  induction s as [|d s IH]; intros v; cbn [bytes.Contains];
    rewrite orb_true_iff.
  - split.
    + intros [Hp|Hf]; [|discriminate].
      apply HasPrefix_iff in Hp. destruct Hp as [post Hp].
      now exists EmptyString, post.
    + intros [pre [post Hs]]. left. apply HasPrefix_iff.
      destruct pre; [|discriminate]. now exists post.
  - rewrite IH, HasPrefix_iff. split.
    + intros [[post Hp]|[pre [post Hs]]].
      * now exists EmptyString, post.
      * exists (String d pre), post. simpl. now rewrite Hs.
    + intros [[|c pre] [post Hs]]; simpl in Hs.
      * left. now exists post.
      * right. injection Hs as -> ->. now exists pre, post.
Qed.

(** ** The bisection *)

Lemma wrap_small x : - 2 ^ 63 <= x < 2 ^ 63 -> GoInt.wrap x = x.
Proof.
  intros Hx. unfold GoInt.wrap.
  rewrite Z.mod_small; lia.
Qed.

Lemma midpoint i j :
  0 <= i -> i < j -> j <= GoInt.max ->
  GoInt.wrap (Z.shiftr (GoInt.to_uint (GoInt.add i j)) 1) = (i + j) / 2.
Proof.
  unfold GoInt.max. intros Hi Hij Hj.
  assert (E : GoInt.to_uint (GoInt.add i j) = i + j).
  { unfold GoInt.to_uint, GoInt.add, GoInt.wrap.
    rewrite Zminus_mod_idemp_l.
    replace (i + j + 2 ^ 63 - 2 ^ 63) with (i + j) by lia.
    apply Z.mod_small. lia. }
  rewrite E, Z.shiftr_div_pow2 by lia. change (2 ^ 1) with 2.
  apply wrap_small.
  assert (0 <= (i + j) / 2) by (apply Z.div_pos; lia).
  assert ((i + j) / 2 < j) by (apply Z.div_lt_upper_bound; lia).
  lia.
Qed.

Section Bisection.
Context {S : Type}.
Variable n : Z.
Variable compare : Z -> S -> outcome (Z * S).
Variable c : Z -> Z.
Variable Q : Z -> S -> Prop.
Hypothesis n_range : 0 <= n <= GoInt.max.
Hypothesis compare_val :
  forall i st, 0 <= i < n -> exists st', compare i st = Ok (c i, st') /\ Q i st'.
Hypothesis c_tri_state : tri_state n c.

(** On a tri-state comparator the range shrinks at each probe: the loop
    returns, with fuel [j - i], a position that compares 0 or -1. *)
Lemma binarySearch_loop_returns fuel : forall i j st,
  0 <= i -> i <= j -> j <= n -> (Z.to_nat (j - i) <= fuel)%nat ->
  exists r st',
    binarySearch_loop fuel compare i j st = Ok (r, st') /\
    ((i <= r < j /\ c r = 0 /\ Q r st') \/
     (r = -1 /\
      (ordered n c ->
       (forall x, 0 <= x < i -> c x = 1) ->
       (forall x, j <= x < n -> c x = -1) ->
       forall x, 0 <= x < n -> c x <> 0))).
Proof.
  induction fuel as [|fuel IH]; intros i j st Hi Hij Hj Hfuel; simpl.
  - destruct (i <? j) eqn:E; [apply Z.ltb_lt in E; lia|].
    exists (-1), st. split; [reflexivity|right]. split; [reflexivity|].
    apply Z.ltb_ge in E. intros _ Hlo Hhi x Hx.
    destruct (Z_lt_le_dec x i) as [L|L]; [rewrite Hlo|rewrite Hhi]; lia.
  - destruct (i <? j) eqn:E.
    + apply Z.ltb_lt in E.
      rewrite midpoint by (unfold GoInt.max in *; lia).
      set (h := (i + j) / 2).
      assert (Hh : i <= h < j).
      { unfold h. split; [apply Z.div_le_lower_bound|apply Z.div_lt_upper_bound]; lia. }
      destruct (compare_val h st) as [st' [Ec Qh]]; [lia|].
      rewrite Ec. cbn [obind].
      destruct (c_tri_state h) as [Hc|[Hc|Hc]]; [lia| | |]; rewrite Hc; simpl.
      * destruct (IH i h st') as [r [st'' [Er Hr]]]; try lia.
        exists r, st''. split; [exact Er|].
        destruct Hr as [[Hr1 Hr2]|[-> Hr]]; [left; split; [lia|exact Hr2]|right].
        split; [reflexivity|]. intros Hord Hlo Hhi. apply Hr; auto.
        intros x Hx. destruct (Z.eq_dec x h) as [->|Hne]; [exact Hc|].
        destruct (Z_lt_le_dec x j) as [L|L]; [|apply Hhi; lia].
        destruct (Hord h x) as [H1|H1]; try lia.
      * exists h, st'. split; [reflexivity|left]. repeat split; auto; lia.
      * unfold GoInt.add. rewrite wrap_small by (unfold GoInt.max in *; lia).
        destruct (IH (h + 1) j st') as [r [st'' [Er Hr]]]; try lia.
        exists r, st''. split; [exact Er|].
        destruct Hr as [[Hr1 Hr2]|[-> Hr]]; [left; split; [lia|exact Hr2]|right].
        split; [reflexivity|]. intros Hord Hlo Hhi. apply Hr; auto.
        intros x Hx. destruct (Z.eq_dec x h) as [->|Hne]; [exact Hc|].
        destruct (Z_lt_le_dec x i) as [L|L]; [apply Hlo; lia|].
        destruct (Hord x h) as [H1|H1]; try lia.
    + exists (-1), st. split; [reflexivity|right]. split; [reflexivity|].
      apply Z.ltb_ge in E. intros _ Hlo Hhi x Hx.
      destruct (Z_lt_le_dec x i) as [L|L]; [rewrite Hlo|rewrite Hhi]; lia.
Qed.

Lemma binarySearch_returns fuel st :
  (Z.to_nat n <= fuel)%nat ->
  exists r st',
    binarySearch fuel n compare st = Ok (r, st') /\
    ((0 <= r < n /\ c r = 0 /\ Q r st') \/
     (r = -1 /\ (ordered n c -> forall x, 0 <= x < n -> c x <> 0))).
Proof.
  intros Hfuel. unfold binarySearch.
  destruct (binarySearch_loop_returns fuel 0 n st) as [r [st' [Er Hr]]];
    try lia.
  exists r, st'. split; [exact Er|].
  destruct Hr as [Hr|[-> Hr]]; [now left|right].
  split; [reflexivity|]. intros Hord. apply Hr; auto; intros; lia.
Qed.
End Bisection.

(** ** Positions of a vector *)

Lemma nthZ_Some {A} (l : list A) i x :
  nthZ l i = Some x -> 0 <= i < Z.of_nat (List.length l) /\ In x l.
Proof.
  unfold nthZ. destruct (i <? 0) eqn:E; [discriminate|].
  apply Z.ltb_ge in E. intros Hn. split.
  - assert (Z.to_nat i < List.length l)%nat
      by (apply nth_error_Some; congruence). lia.
  - eapply nth_error_In; eauto.
Qed.

Lemma nthZ_in_range {A} (l : list A) i :
  0 <= i < Z.of_nat (List.length l) -> exists x, nthZ l i = Some x.
Proof.
  intros Hi. unfold nthZ.
  destruct (i <? 0) eqn:E; [apply Z.ltb_lt in E; lia|].
  destruct (nth_error l (Z.to_nat i)) eqn:En; [eauto|].
  apply nth_error_None in En. lia.
Qed.

Lemma In_nthZ {A} (l : list A) x :
  In x l -> exists i, 0 <= i < Z.of_nat (List.length l) /\ nthZ l i = Some x.
Proof.
  intros Hin. apply In_nth_error in Hin. destruct Hin as [m Hm].
  assert (m < List.length l)%nat by (apply nth_error_Some; congruence).
  exists (Z.of_nat m). split; [lia|].
  unfold nthZ. destruct (Z.of_nat m <? 0) eqn:E; [apply Z.ltb_lt in E; lia|].
  now rewrite Nat2Z.id.
Qed.

Lemma nthZ_cons {A} (a : A) l i :
  0 <= i -> nthZ (a :: l) (i + 1) = nthZ l i.
Proof.
  intros Hi. unfold nthZ.
  destruct (i <? 0) eqn:E; [apply Z.ltb_lt in E; lia|].
  destruct (i + 1 <? 0) eqn:E1; [apply Z.ltb_lt in E1; lia|].
  replace (Z.to_nat (i + 1)) with (Datatypes.S (Z.to_nat i)) by lia.
  reflexivity.
Qed.

(** ** Descending keys *)

Lemma descending_tail r l : descending (r :: l) = true -> descending l = true.
Proof.
  simpl. destruct l as [|r' l]; [reflexivity|].
  intros Hd. apply andb_true_iff in Hd. tauto.
Qed.

Lemma descending_head r l :
  descending (r :: l) = true ->
  forall r', In r' l -> bytes.Compare (kv_key r) (kv_key r') = 1.
Proof.
  revert r. induction l as [|a l IH]; intros r Hd r' Hin; [destruct Hin|].
  cbn [descending] in Hd. apply andb_true_iff in Hd. destruct Hd as [Hra Hd].
  apply Z.eqb_eq in Hra. destruct Hin as [->|Hin]; [exact Hra|].
  eapply Compare_gt_trans; [exact Hra|]. now apply IH.
Qed.

Lemma descending_positions l : descending l = true ->
  forall i j ri rj, 0 <= i -> i < j ->
    nthZ l i = Some ri -> nthZ l j = Some rj ->
    bytes.Compare (kv_key ri) (kv_key rj) = 1.
Proof.
  induction l as [|a l IH]; intros Hd i j ri rj Hi Hij Hri Hrj.
  - unfold nthZ in Hri. destruct (i <? 0); [discriminate|].
    destruct (Z.to_nat i); discriminate.
  - replace j with ((j - 1) + 1) in Hrj by lia.
    rewrite nthZ_cons in Hrj by lia.
    destruct (Z.eq_dec i 0) as [->|Hne].
    + cbn in Hri. injection Hri as ->.
      apply (descending_head _ _ Hd). now apply nthZ_Some in Hrj.
    + replace i with ((i - 1) + 1) in Hri by lia.
      rewrite nthZ_cons in Hri by lia.
      apply (IH (descending_tail _ _ Hd) (i - 1) (j - 1)); auto; lia.
Qed.

Lemma descending_unique_key l : descending l = true ->
  forall r r', In r l -> In r' l -> kv_key r = kv_key r' -> r = r'.
Proof.
  intros Hd r r' Hr Hr' Hk.
  apply In_nthZ in Hr, Hr'. destruct Hr as [i [Hi Hri]], Hr' as [j [Hj Hrj]].
  destruct (Z.lt_trichotomy i j) as [L|[E|L]].
  - pose proof (descending_positions l Hd i j r r' (proj1 Hi) L Hri Hrj) as Hc.
    rewrite Hk in Hc.
    assert (bytes.Compare (kv_key r') (kv_key r') = 0) by now apply Compare_eq_iff.
    lia.
  - subst j. congruence.
  - pose proof (descending_positions l Hd j i r' r (proj1 Hj) L Hrj Hri) as Hc.
    rewrite Hk in Hc.
    assert (bytes.Compare (kv_key r') (kv_key r') = 0) by now apply Compare_eq_iff.
    lia.
Qed.

(** ** FindTag and ContainsTag over any container *)

Section ReaderFacts.
Context {C : Type} `{FBTagContainer C}.
Variable s : C.
Hypothesis fits_int : TagsLength s <= GoInt.max.

Lemma FindTag_compare_at k i buf r :
  nthZ (tag_vector s) i = Some r ->
  FindTag_compare s k i buf = Ok (bytes.Compare (kv_key r) k, Some r).
Proof.
  intros Hr. unfold FindTag_compare, Tags. now rewrite Hr.
Qed.

Lemma FindTag_compare_val k i buf :
  0 <= i < TagsLength s ->
  exists st',
    FindTag_compare s k i buf = Ok (bytes.Compare (key_at s i) k, st') /\
    (st' = nthZ (tag_vector s) i /\ st' <> None).
Proof.
  intros Hi. destruct (nthZ_in_range (tag_vector s) i Hi) as [r Hr].
  exists (Some r). unfold key_at. rewrite Hr.
  split; [now apply FindTag_compare_at|]. split; [reflexivity|discriminate].
Qed.

Lemma key_order_ordered k :
  descending (tag_vector s) = true ->
  ordered (TagsLength s) (fun i => bytes.Compare (key_at s i) k).
Proof.
  intros Hd i j Hi Hij Hj. unfold key_at.
  destruct (nthZ_in_range (tag_vector s) i) as [ri Hri];
    [unfold TagsLength in *; lia|].
  destruct (nthZ_in_range (tag_vector s) j) as [rj Hrj];
    [unfold TagsLength in *; lia|].
  rewrite Hri, Hrj.
  pose proof (descending_positions _ Hd i j ri rj Hi Hij Hri Hrj) as Hgt.
  destruct (Compare_tri_state (kv_key ri) k) as [Hc|[Hc|Hc]]; [right|right|now left].
  - rewrite Compare_antisym in Hc.
    assert (Hk : bytes.Compare k (kv_key ri) = 1) by lia.
    pose proof (Compare_gt_trans _ _ _ Hk Hgt) as Hkj.
    rewrite Compare_antisym. lia.
  - apply Compare_eq_iff in Hc. subst k.
    rewrite Compare_antisym. lia.
Qed.

(** [FindTag] always returns.  A match leaves in the decode target a
    record of the container with the key asked for; over descending
    keys a miss means that no record has the key. *)
Lemma FindTag_returns buf k :
  exists found buf',
    FindTag s buf k = Ok (found, buf') /\
    (found = true ->
     exists r, buf' = Some r /\ In r (tag_vector s) /\ kv_key r = k) /\
    (found = false -> descending (tag_vector s) = true -> ~ has_key s k).
Proof.
  unfold FindTag.
  assert (Hn : 0 <= TagsLength s <= GoInt.max)
    by (split; [unfold TagsLength; lia|exact fits_int]).
  destruct (binarySearch_returns (TagsLength s) (FindTag_compare s k)
              (fun i => bytes.Compare (key_at s i) k)
              (fun i st => st = nthZ (tag_vector s) i /\ st <> None)
              Hn (FindTag_compare_val k)
              (fun i _ => Compare_tri_state _ _)
              (Z.to_nat (TagsLength s)) buf (le_n _))
    as [r [st' [Er Hr]]].
  rewrite Er. cbn [obind].
  destruct Hr as [[Hr [Hc [Hq Hq']]]|[-> Hmiss]].
  - destruct (r >=? 0) eqn:E;
      [|rewrite Z.geb_leb in E; apply Z.leb_gt in E; lia].
    exists true, st'. split; [reflexivity|]. split; [|discriminate].
    intros _. destruct st' as [rec|]; [|congruence].
    exists rec. split; [reflexivity|]. symmetry in Hq.
    split; [now apply nthZ_Some in Hq|].
    unfold key_at in Hc. rewrite Hq in Hc. now apply Compare_eq_iff.
  - exists false, st'. split; [reflexivity|]. split; [discriminate|].
    intros _ Hd [rec [Hin Hk]].
    apply In_nthZ in Hin. destruct Hin as [i [Hi Hrec]].
    apply (Hmiss (key_order_ordered k Hd) i Hi).
    unfold key_at. rewrite Hrec. now apply Compare_eq_iff.
Qed.

Lemma ContainsTag_loop_existsb v r : forall vs j,
  (exists pre, kv_value r = pre ++ vs /\ j = Z.of_nat (List.length pre)) ->
  ContainsTag_loop (List.length vs) (Some r) v j =
  Ok (existsb (fun val => bytes.Contains val v) vs).
Proof.
  induction vs as [|w vs IH]; intros j [pre [Hpre Hj]]; [reflexivity|].
  cbn [List.length ContainsTag_loop Value existsb].
  assert (Hw : nthZ (kv_value r) j = Some w).
  { unfold nthZ. destruct (j <? 0) eqn:E; [apply Z.ltb_lt in E; lia|].
    rewrite Hpre, Hj, Nat2Z.id, nth_error_app2 by lia.
    now rewrite Nat.sub_diag. }
  rewrite Hw. cbn [obind].
  destruct (bytes.Contains w v); [reflexivity|]. cbn [orb].
  apply IH. exists (pre ++ [w]). split.
  - now rewrite <- app_assoc.
  - rewrite length_app. simpl. lia.
Qed.

(** [ContainsTag] always returns; its answer is [true] exactly when the
    record that [FindTag] matched has a value containing [v]. *)
Lemma ContainsTag_returns buf k v :
  exists b buf',
    ContainsTag s buf k v = Ok (b, buf') /\
    (b = true ->
     exists r val, In r (tag_vector s) /\ kv_key r = k /\
                   In val (kv_value r) /\ bytes.Contains val v = true) /\
    (b = false -> descending (tag_vector s) = true ->
     forall r val, In r (tag_vector s) -> kv_key r = k ->
                   In val (kv_value r) -> bytes.Contains val v = false).
Proof.
  unfold ContainsTag.
  destruct (FindTag_returns buf k) as [found [buf' [Ef [Hfound Hmiss]]]].
  rewrite Ef. cbn [obind]. destruct found.
  - destruct (Hfound eq_refl) as [r [-> [Hin Hk]]].
    cbn [ValueLength obind]. rewrite Nat2Z.id.
    rewrite (ContainsTag_loop_existsb v r (kv_value r) 0)
      by (exists []; split; reflexivity).
    cbn [obind]. eexists _, _. split; [reflexivity|]. split.
    + intros Hb. apply existsb_exists in Hb. destruct Hb as [val [Hv Hc]].
      now exists r, val.
    + intros Hb Hd r' val Hin' Hk' Hval.
      assert (r' = r) by (eapply descending_unique_key; eauto; congruence).
      subst r'.
      destruct (bytes.Contains val v) eqn:Ec; [|reflexivity].
      assert (Hex : existsb (fun val => bytes.Contains val v) (kv_value r) = true)
        by (apply existsb_exists; eauto).
      congruence.
  - exists false, buf'. split; [reflexivity|]. split; [discriminate|].
    intros _ Hd r val Hin Hk _. exfalso.
    apply (Hmiss eq_refl Hd). now exists r.
Qed.
End ReaderFacts.

(** ** Get *)

Section GetFacts.
Context `{bytes.UnicodeTables}.
Variable s : SearchEntry.

Lemma Get_loop_find kb : forall suf pre buf,
  se_tags s = pre ++ suf ->
  Get_loop s kb (List.length suf) (Z.of_nat (List.length pre)) buf =
  match find (fun r => bytes.Equal (kv_key r) kb) suf with
  | Some r => Value (Some r) 0
  | None => Ok EmptyString
  end.
Proof.
  induction suf as [|r suf IH]; intros pre buf Hs; [reflexivity|].
  cbn [List.length Get_loop find].
  assert (Hr : nthZ (tag_vector s) (Z.of_nat (List.length pre)) = Some r).
  { unfold nthZ.
    destruct (Z.of_nat (List.length pre) <? 0) eqn:E;
      [apply Z.ltb_lt in E; lia|].
    cbn [tag_vector SearchEntry_container].
    rewrite Hs, Nat2Z.id, nth_error_app2 by lia.
    now rewrite Nat.sub_diag. }
  unfold Tags. rewrite Hr. cbn [Key obind].
  destruct (bytes.Equal (kv_key r) kb); [reflexivity|].
  replace (Z.of_nat (List.length pre) + 1)
    with (Z.of_nat (List.length (pre ++ [r])))
    by (rewrite length_app; simpl; lia).
  apply IH. now rewrite <- app_assoc.
Qed.

Lemma Get_find k :
  Get s k =
  match find (fun r => bytes.Equal (kv_key r) (bytes.ToLower k)) (se_tags s) with
  | Some r => Value (Some r) 0
  | None => Ok EmptyString
  end.
Proof.
  unfold Get, TagsLength. cbn [tag_vector SearchEntry_container].
  rewrite Nat2Z.id. now apply (Get_loop_find _ (se_tags s) []).
Qed.
End GetFacts.

(** * The claims *)

(** C2 (as amended).  The closure that [FindTag] passes to [binarySearch]
    computes [bytes.Compare(stored_key, target_key)]: at a position that
    holds record [r] it answers [Compare (kv_key r) k] and leaves [r] in
    the decode target.  With that sign the search over strictly
    descending keys finds every key that is stored. *)
Theorem FindTag_compares_stored_against_target
    {C : Type} `{FBTagContainer C} (s : C) (k : string) :
  (forall i buf r,
     nthZ (tag_vector s) i = Some r ->
     FindTag_compare s k i buf = Ok (bytes.Compare (kv_key r) k, Some r)) /\
  (TagsLength s <= GoInt.max ->
   descending (tag_vector s) = true ->
   forall r buf,
     In r (tag_vector s) -> kv_key r = k ->
     FindTag s buf k = Ok (true, Some r)).
Proof.
  split; [intros i buf r; apply FindTag_compare_at|].
  intros Hsize Hd r buf Hin Hk.
  destruct (FindTag_returns s Hsize buf k) as [found [buf' [Ef [Hfound Hmiss]]]].
  rewrite Ef. destruct found.
  - destruct (Hfound eq_refl) as [r' [-> [Hin' Hk']]].
    now rewrite (descending_unique_key _ Hd r' r Hin' Hin) by congruence.
  - exfalso. apply (Hmiss eq_refl Hd). now exists r.
Qed.

Lemma FindTag_compares_stored_against_target_witness :
  FindTag_compare entry_cba "b" 0 None = Ok (1, Some (kv "c" ["3"%string])) /\
  FindTag entry_cba None "b" = Ok (true, Some (kv "b" ["2"%string])).
Proof.
  split.
  - exact (proj1 (FindTag_compares_stored_against_target entry_cba "b")
             0 None (kv "c" ["3"%string]) eq_refl).
  - apply (proj2 (FindTag_compares_stored_against_target entry_cba "b")).
    + vm_compute. discriminate.
    + reflexivity.
    + simpl. tauto.
    + reflexivity.
Defined.

(** The operands are not [(target_key, stored_key)]: on stored key "b"
    and target "a" the closure answers [Compare "b" "a" = 1], while
    [Compare "a" "b"] is -1. *)
Lemma FindTag_compare_not_target_first :
  FindTag_compare entry_cba "a" 1 None =
    Ok (bytes.Compare "b" "a", Some (kv "b" ["2"%string])) /\
  FindTag_compare entry_cba "a" 1 None <>
    Ok (bytes.Compare "a" "b", Some (kv "b" ["2"%string])).
Proof. split; [reflexivity|discriminate]. Qed.

(** C3.  For a length [n >= 0] and a tri-state comparator that agrees
    with a strict total order over the positions, [binarySearch] returns
    (with fuel [n]) the first position at which the comparator reports 0,
    or -1 when no position does.  Over keys [c, b, a], searching "b"
    returns 1 and searching "z" returns -1. *)
Theorem binarySearch_exact {S : Type} (n : Z)
    (compare : Z -> S -> outcome (Z * S)) (c : Z -> Z) (st : S) (fuel : nat)
    (Hn : 0 <= n <= GoInt.max)
    (Hcompare : forall i st, 0 <= i < n ->
                  exists st', compare i st = Ok (c i, st'))
    (Htri : tri_state n c) (Hord : ordered n c)
    (Hfuel : (Z.to_nat n <= fuel)%nat) :
  (exists r st',
     binarySearch fuel n compare st = Ok (r, st') /\
     ((0 <= r < n /\ c r = 0 /\ forall i, 0 <= i < r -> c i <> 0) \/
      (r = -1 /\ forall i, 0 <= i < n -> c i <> 0))) /\
  binarySearch 3 3 (FindTag_compare entry_cba "b") None =
    Ok (1, Some (kv "b" ["2"%string])) /\
  binarySearch 3 3 (FindTag_compare entry_cba "z") None =
    Ok (-1, Some (kv "c" ["3"%string])).
Proof.
  split; [|split; reflexivity].
  destruct (binarySearch_returns n compare c (fun _ _ => True) Hn) with
    (fuel := fuel) (st := st) as [r [st' [Er Hr]]]; auto.
  { intros i st0 Hi. destruct (Hcompare i st0 Hi) as [st1 E]. eauto. }
  exists r, st'. split; [exact Er|].
  destruct Hr as [[Hr [Hc _]]|[-> Hmiss]]; [left|right; auto].
  repeat split; try tauto. intros i Hi.
  destruct (Hord i r) as [Hi1|Hr1]; lia.
Qed.

Lemma binarySearch_exact_witness :
  exists r st',
    binarySearch 3 3 (FindTag_compare entry_cba "a") None = Ok (r, st') /\
    ((0 <= r < 3 /\ bytes.Compare (key_at entry_cba r) "a" = 0 /\
      forall i, 0 <= i < r -> bytes.Compare (key_at entry_cba i) "a" <> 0) \/
     (r = -1 /\
      forall i, 0 <= i < 3 -> bytes.Compare (key_at entry_cba i) "a" <> 0)).
Proof.
  apply (binarySearch_exact 3 (FindTag_compare entry_cba "a")
           (fun i => bytes.Compare (key_at entry_cba i) "a") None 3).
  - unfold GoInt.max. lia.
  - intros i st Hi. change 3 with (TagsLength entry_cba) in Hi.
    destruct (FindTag_compare_val entry_cba "a" i st Hi) as [st' [E _]].
    now exists st'.
  - intros i _. apply Compare_tri_state.
  - exact (key_order_ordered entry_cba "a" eq_refl).
  - simpl. lia.
Defined.

(** C4.  On an entry whose keys are strictly descending, [Get] -- a
    linear scan for the lower-cased key -- returns what the lookup of the
    specification returns (lower-case, binary search by [FindTag],
    [Value(0)] of the match): the first value of the key, or the empty
    string when the key is absent. *)
Theorem Get_refines_search `{bytes.UnicodeTables} (s : SearchEntry) (k : string)
    (Hsize : TagsLength s <= GoInt.max)
    (Hdesc : descending (tag_vector s) = true) :
  Get s k = Get_by_search s k /\
  (forall r v vs,
     In r (se_tags s) -> kv_key r = bytes.ToLower k -> kv_value r = v :: vs ->
     Get s k = Ok v) /\
  (~ has_key s (bytes.ToLower k) -> Get s k = Ok EmptyString).
Proof.
  rewrite Get_find. unfold Get_by_search.
  destruct (FindTag_returns s Hsize None (bytes.ToLower k))
    as [found [buf' [Ef [Hfound Hmiss]]]].
  rewrite Ef. cbn [obind].
  destruct (find (fun r => bytes.Equal (kv_key r) (bytes.ToLower k)) (se_tags s))
    as [r0|] eqn:Efind.
  - apply find_some in Efind. destruct Efind as [Hin0 Hk0].
    apply Equal_eq in Hk0.
    split; [|split].
    + destruct found.
      * destruct (Hfound eq_refl) as [r [-> [Hin Hk]]].
        now rewrite (descending_unique_key _ Hdesc r0 r Hin0 Hin) by congruence.
      * exfalso. apply (Hmiss eq_refl Hdesc). now exists r0.
    + intros r v vs Hin Hk Hv.
      rewrite (descending_unique_key _ Hdesc r0 r Hin0 Hin) by congruence.
      unfold Value. now rewrite Hv.
    + intros Habs. exfalso. apply Habs. now exists r0.
  - split; [|split].
    + destruct found; [|reflexivity].
      destruct (Hfound eq_refl) as [r [-> [Hin Hk]]].
      pose proof (find_none _ _ Efind r Hin) as Hne. cbn beta in Hne.
      apply Equal_eq in Hk. congruence.
    + intros r v vs Hin Hk Hv.
      pose proof (find_none _ _ Efind r Hin) as Hne. cbn beta in Hne.
      apply Equal_eq in Hk. congruence.
    + reflexivity.
Qed.

Lemma Get_refines_search_witness :
  @Get asciiTables entry_cba "B" = @Get_by_search asciiTables entry_cba "B" /\
  @Get asciiTables entry_cba "B" = Ok "2"%string.
Proof.
  assert (Hsize : TagsLength entry_cba <= GoInt.max) by (vm_compute; discriminate).
  destruct (@Get_refines_search asciiTables entry_cba "B" Hsize eq_refl)
    as [Href [Hfirst _]].
  split; [exact Href|].
  apply (Hfirst (kv "b" ["2"%string]) "2"%string []); simpl; auto.
Defined.




(** C10.  [FindTag] and [ContainsTag] compare the key as the caller gave
    it.  Over a container whose stored keys have no upper-case byte, a
    key with an upper-case byte matches nothing: [FindTag] returns nil and
    [ContainsTag] returns [false].  [Get], which lower-cases its key,
    succeeds on "HOST" where [Contains] does not. *)
Theorem uppercase_key_never_matches
    {C : Type} `{FBTagContainer C} (s : C) (k v : string) (buffer : KeyValuesBuf)
    (Hsize : TagsLength s <= GoInt.max)
    (Hstored : forall r, In r (tag_vector s) -> lowercased (kv_key r) = true)
    (Hupper : lowercased k = false) :
  (exists buffer', FindTag s buffer k = Ok (false, buffer')) /\
  (exists buffer', ContainsTag s buffer k v = Ok (false, buffer')) /\
  @Get asciiTables entry_host "HOST" = Ok "example.com"%string /\
  Contains entry_host "HOST" "example" None = Ok (false, Some (kv "host" ["example.com"%string])).
Proof.
  assert (Hfind : exists buffer', FindTag s buffer k = Ok (false, buffer')).
  { destruct (FindTag_returns s Hsize buffer k) as [found [buf' [Ef [Hfound _]]]].
    destruct found; [|now exists buf'].
    destruct (Hfound eq_refl) as [r [_ [Hin Hk]]].
    specialize (Hstored r Hin). congruence. }
  split; [exact Hfind|]. split; [|split; reflexivity].
  destruct Hfind as [buf' Ef]. exists buf'.
  unfold ContainsTag. now rewrite Ef.
Qed.

Lemma uppercase_key_never_matches_witness :
  lowercased "HOST" = false /\
  (exists buffer', FindTag entry_host None "HOST" = Ok (false, buffer')) /\
  (exists buffer', ContainsTag entry_host None "HOST" "example" = Ok (false, buffer')).
Proof.
  split; [reflexivity|].
  destruct (uppercase_key_never_matches entry_host "HOST" "example" None)
    as [Hf [Hc _]].
  - vm_compute. discriminate.
  - intros r [<-|[]]. reflexivity.
  - reflexivity.
  - split; [exact Hf|exact Hc].
Defined.

(** ** Time range of a mutable entry *)

Lemma SetStartTimeUnixNano_min s t l :
  is_min_nonzero l (StartTimeUnixNano s) ->
  is_min_nonzero (l ++ [t]) (StartTimeUnixNano (SetStartTimeUnixNano s t)).
Proof.
  unfold SetStartTimeUnixNano, is_min_nonzero.
  intros Hl.
  destruct (0 <? t)%N eqn:Et; cbn [andb].
  - apply N.ltb_lt in Et.
    destruct (StartTimeUnixNano s =? 0)%N eqn:E0; cbn [orb].
    + apply N.eqb_eq in E0. cbn [StartTimeUnixNano]. right.
      split; [lia|]. split; [apply in_or_app; right; now left|].
      intros u Hu Hnz. apply in_app_or in Hu.
      destruct Hu as [Hu|[<-|[]]]; [|lia].
      destruct Hl as [[_ Hz]|[Hnz' _]]; [|congruence].
      specialize (Hz u Hu). congruence.
    + apply N.eqb_neq in E0.
      destruct Hl as [[Hz _]|[_ [Hin Hmin]]]; [congruence|].
      destruct (t <? StartTimeUnixNano s)%N eqn:Elt; cbn [StartTimeUnixNano].
      * apply N.ltb_lt in Elt. right.
        split; [lia|]. split; [apply in_or_app; right; now left|].
        intros u Hu Hnz. apply in_app_or in Hu.
        destruct Hu as [Hu|[<-|[]]]; [|lia].
        specialize (Hmin u Hu Hnz). lia.
      * apply N.ltb_ge in Elt. right.
        split; [exact E0|]. split; [apply in_or_app; now left|].
        intros u Hu Hnz. apply in_app_or in Hu.
        destruct Hu as [Hu|[<-|[]]]; [now apply Hmin|exact Elt].
  - apply N.ltb_ge in Et. assert (t = 0%N) by lia. subst t.
    destruct Hl as [[Hz Hall]|[Hnz [Hin Hmin]]]; [left|right].
    + split; [exact Hz|]. intros u Hu. apply in_app_or in Hu.
      destruct Hu as [Hu|[<-|[]]]; auto.
    + split; [exact Hnz|]. split; [apply in_or_app; now left|].
      intros u Hu Hunz. apply in_app_or in Hu.
      destruct Hu as [Hu|[<-|[]]]; [now apply Hmin|congruence].
Qed.

Lemma SetEndTimeUnixNano_max s t l :
  is_max_nonzero l (EndTimeUnixNano s) ->
  is_max_nonzero (l ++ [t]) (EndTimeUnixNano (SetEndTimeUnixNano s t)).
Proof.
  unfold SetEndTimeUnixNano, is_max_nonzero.
  intros Hl.
  destruct ((0 <? t) && (EndTimeUnixNano s <? t))%N eqn:E; cbn [EndTimeUnixNano].
  - apply andb_true_iff in E. destruct E as [Et Elt].
    apply N.ltb_lt in Et, Elt. right.
    split; [lia|]. split; [apply in_or_app; right; now left|].
    intros u Hu. apply in_app_or in Hu.
    destruct Hu as [Hu|[<-|[]]]; [|lia].
    destruct Hl as [[_ Hz]|[_ [_ Hmax]]].
    + rewrite (Hz u Hu). lia.
    + specialize (Hmax u Hu). lia.
  - apply andb_false_iff in E.
    assert (Ht : (t <= EndTimeUnixNano s)%N).
    { destruct E as [E|E]; apply N.ltb_ge in E; lia. }
    destruct Hl as [[Hz Hall]|[Hnz [Hin Hmax]]]; [left|right].
    + split; [exact Hz|]. intros u Hu. apply in_app_or in Hu.
      destruct Hu as [Hu|[<-|[]]]; [auto|lia].
    + split; [exact Hnz|]. split; [apply in_or_app; now left|].
      intros u Hu. apply in_app_or in Hu.
      destruct Hu as [Hu|[<-|[]]]; [now apply Hmax|exact Ht].
Qed.

Lemma do_calls_time_range cs : forall s ls le,
  is_min_nonzero ls (StartTimeUnixNano s) ->
  is_max_nonzero le (EndTimeUnixNano s) ->
  is_min_nonzero (ls ++ start_args cs) (StartTimeUnixNano (do_calls s cs)) /\
  is_max_nonzero (le ++ end_args cs) (EndTimeUnixNano (do_calls s cs)).
Proof.
  induction cs as [|c cs IH]; intros s ls le Hs He.
  - simpl. now rewrite !app_nil_r.
  - unfold do_calls in *. cbn [fold_left start_args end_args flat_map].
    destruct c as [k v|t|t]; cbn [do_call app].
    + apply IH; assumption.
    + replace (ls ++ t :: flat_map _ cs) with ((ls ++ [t]) ++ start_args cs)
        by (now rewrite <- app_assoc).
      apply IH.
      * now apply SetStartTimeUnixNano_min.
      * unfold SetStartTimeUnixNano.
        now destruct ((0 <? t) && _)%N.
    + replace (le ++ t :: flat_map _ cs) with ((le ++ [t]) ++ end_args cs)
        by (now rewrite <- app_assoc).
      apply IH.
      * unfold SetEndTimeUnixNano.
        now destruct ((0 <? t) && _)%N.
      * now apply SetEndTimeUnixNano_max.
Qed.

(** C5.  After any sequence of calls on a fresh [SearchEntryMutable],
    [StartTimeUnixNano] is the smallest non-zero argument passed to
    [SetStartTimeUnixNano] and [EndTimeUnixNano] the largest non-zero
    argument passed to [SetEndTimeUnixNano], 0 when there was none; a
    zero argument changes nothing.  Start arguments [0,5,3,0,9] leave 3
    and end arguments [0,5,9,3] leave 9. *)
Theorem time_range_min_max (id : string) (tags : option SearchDataMap)
    (cs : list call) :
  let fresh := mkSearchEntryMutable id tags 0 0 in
  is_min_nonzero (start_args cs) (StartTimeUnixNano (do_calls fresh cs)) /\
  is_max_nonzero (end_args cs) (EndTimeUnixNano (do_calls fresh cs)) /\
  (forall s, SetStartTimeUnixNano s 0 = s /\ SetEndTimeUnixNano s 0 = s) /\
  StartTimeUnixNano
    (do_calls fresh (map CallSetStartTimeUnixNano [0; 5; 3; 0; 9]%N)) = 3%N /\
  EndTimeUnixNano
    (do_calls fresh (map CallSetEndTimeUnixNano [0; 5; 9; 3]%N)) = 9%N.
Proof.
  intros fresh.
  destruct (do_calls_time_range cs fresh [] []) as [Hmin Hmax].
  - left. split; [reflexivity|intros t []].
  - left. split; [reflexivity|intros t []].
  - repeat split; auto.
Qed.

(** ** The builder: what each call files *)

Lemma extends_refl objs : extends objs objs.
Proof. intros o x Hx. exact Hx. Qed.

Lemma extends_trans o1 o2 o3 : extends o1 o2 -> extends o2 o3 -> extends o1 o3.
Proof. intros H12 H23 o x Hx. auto. Qed.

Lemma grows_trans b1 b2 b3 : grows b1 b2 -> grows b2 b3 -> grows b1 b3.
Proof.
  intros [_ [_ [Ho1 He1]]] [Hwf [Hn [Ho2 He2]]].
  split; [exact Hwf|]. split; [exact Hn|]. split; [lia|].
  eapply extends_trans; eauto.
Qed.

Lemma grows_refl b : wf b -> nested b = false -> grows b b.
Proof.
  intros Hwf Hn. split; [exact Hwf|]. split; [exact Hn|]. split; [lia|].
  apply extends_refl.
Qed.

(** Filing an object under a fresh offset keeps what was filed. *)
Lemma file_spec b o x :
  wf b -> offset b < o ->
  wf (file o x false b) /\
  extends (objects b) (objects (file o x false b)) /\
  lookup o (objects (file o x false b)) = Some x.
Proof.
  intros [H0 Hwf] Ho. unfold file, wf. cbn [objects offset lookup].
  rewrite Z.eqb_refl. split; [split; [lia|]|split; [|reflexivity]].
  - intros o' y Hy. destruct (o =? o') eqn:E.
    + apply Z.eqb_eq in E. lia.
    + specialize (Hwf _ _ Hy). lia.
  - intros o' y Hy. cbn [lookup].
    destruct (o =? o') eqn:E; [|exact Hy].
    apply Z.eqb_eq in E. specialize (Hwf _ _ Hy). lia.
Qed.

Lemma CreateByteString_spec b s :
  wf b -> nested b = false ->
  exists o b',
    CreateByteString b s = Ok (o, b') /\ grows b b' /\
    0 < o <= offset b' /\
    lookup o (objects b') = Some (ByteString s).
Proof.
  intros Hwf Hn. unfold CreateByteString. rewrite Hn.
  set (o := offset b + Z.of_nat (String.length s) + 1 + 4).
  assert (Ho : offset b < o) by (unfold o; lia).
  destruct (file_spec b o (ByteString s) Hwf Ho) as [Hwf' [Hext Hl]].
  exists o, (file o (ByteString s) false b).
  split; [reflexivity|]. destruct Hwf as [H0 _].
  split; [|split; [cbn [file offset]; lia|exact Hl]].
  split; [exact Hwf'|]. split; [reflexivity|]. split; [cbn [file offset]; lia|].
  exact Hext.
Qed.

Lemma Forall2_impl {A B} (P Q : A -> B -> Prop) l l' :
  (forall a b, P a b -> Q a b) -> Forall2 P l l' -> Forall2 Q l l'.
Proof. intros HPQ HF. induction HF; constructor; auto. Qed.

Lemma Forall2_rev {A B} (P : A -> B -> Prop) l l' :
  Forall2 P l l' -> Forall2 P (rev l) (rev l').
Proof.
  intros HF. induction HF; [constructor|]. simpl.
  apply Forall2_app; [assumption|]. now repeat constructor.
Qed.

Lemma createStrings_spec vs : forall b,
  wf b -> nested b = false ->
  exists os b',
    createStrings b vs = Ok (os, b') /\ grows b b' /\
    Forall2 (fun o v => 0 < o <= offset b' /\
                        lookup o (objects b') = Some (ByteString v)) os vs.
Proof.
  induction vs as [|v vs IH]; intros b Hwf Hn; cbn [createStrings].
  - exists [], b. split; [reflexivity|]. split; [now apply grows_refl|constructor].
  - destruct (CreateByteString_spec b v Hwf Hn) as [o [b1 [E1 [G1 [Ho Hl]]]]].
    rewrite E1. cbn [obind].
    destruct G1 as [Hwf1 [Hn1 [Hoff1 Hext1]]].
    destruct (IH b1 Hwf1 Hn1) as [os [b2 [E2 [G2 HF]]]].
    rewrite E2. cbn [obind].
    exists (o :: os), b2. split; [reflexivity|].
    split; [apply (grows_trans b b1 b2); [|exact G2]|].
    { exact (conj Hwf1 (conj Hn1 (conj Hoff1 Hext1))). }
    destruct G2 as [_ [_ [Hoff2 Hext2]]].
    constructor; [|exact HF]. split; [lia|auto].
Qed.

(** Prepending offsets leaves them in the pending vector, last first. *)
Lemma PrependAll_spec os : forall b,
  Forall (fun o => o <= offset b) os -> 0 <= offset b ->
  PrependAll b os =
  Ok (mkBuilder (objects b) (offset b + 4 * Z.of_nat (List.length os))
        (nested b) (finished b) (rev os ++ vector b) (slots b) (root b)).
Proof.
  induction os as [|o os IH]; intros b HF H0.
  - cbn. replace (offset b + 0) with (offset b) by lia. now destruct b.
  - cbn [PrependAll]. unfold PrependUOffsetT.
    inversion HF as [|? ? Ho HF']; subst.
    destruct (o <=? offset b) eqn:E; [|apply Z.leb_gt in E; lia].
    cbn [obind]. rewrite IH; cbn [offset objects nested finished vector slots root].
    + f_equal. f_equal; [rewrite length_cons; lia|].
      cbn [rev]. now rewrite <- app_assoc.
    + eapply Forall_impl; [|exact HF']. cbn beta. intros; lia.
    + lia.
Qed.

(** A vector of offsets, built by [StartVector], prepends in order and
    [EndVector], reads in reverse of the order of the prepends. *)
Lemma vector_spec b os :
  wf b -> nested b = false -> Forall (fun o => o <= offset b) os ->
  let n := Z.of_nat (List.length os) in
  exists vo b',
    ('(_, b1) <- StartVector b 4 n 4 ;;
     b2 <- PrependAll b1 os ;;
     EndVector b2 n) = Ok (vo, b') /\
    grows b b' /\ 0 < vo <= offset b' /\
    lookup vo (objects b') = Some (Vector (rev os)).
Proof.
  intros Hwf Hn HF n. unfold StartVector. rewrite Hn. cbn [obind].
  rewrite PrependAll_spec; cbn [offset objects nested finished vector slots root];
    [|exact HF|apply Hwf].
  cbn [obind]. unfold EndVector. cbn [nested offset vector].
  rewrite app_nil_r. unfold n. rewrite Nat2Z.id.
  rewrite <- length_rev, firstn_all.
  set (o := offset b + 4 * Z.of_nat (List.length (rev os)) + 4).
  set (b2 := mkBuilder _ _ _ _ _ _ _).
  assert (Hwf2 : wf b2).
  { destruct Hwf as [H0 Hk]. unfold wf, b2. cbn [offset objects].
    split; [lia|]. intros o' x Hx. specialize (Hk _ _ Hx). lia. }
  assert (Ho : offset b2 < o) by (unfold b2, o; cbn [offset]; lia).
  destruct (file_spec b2 o (Vector (rev os)) Hwf2 Ho) as [Hwf' [Hext Hl]].
  exists o, (file o (Vector (rev os)) false b2).
  split; [reflexivity|]. destruct Hwf as [H0 _].
  split; [|split; [cbn [file offset]; unfold o; lia|exact Hl]].
  split; [exact Hwf'|]. split; [reflexivity|].
  split; [cbn [file offset]; unfold o; lia|]. exact Hext.
Qed.

Lemma PrependUOffsetTSlot_spec b slot x :
  0 < x <= offset b ->
  PrependUOffsetTSlot b slot x 0 =
  Ok (mkBuilder (objects b) (offset b + 4) (nested b) (finished b)
        (x :: vector b) ((slot, FOffset x) :: slots b) (root b)).
Proof.
  intros Hx. unfold PrependUOffsetTSlot, PrependUOffsetT.
  destruct (x =? 0) eqn:E0; [apply Z.eqb_eq in E0; lia|].
  destruct (x <=? offset b) eqn:E; [reflexivity|apply Z.leb_gt in E; lia].
Qed.

(** [EndObject] files the table whose slots were set since
    [StartObject]; [b0] is the state before [StartObject]. *)
Lemma EndObject_spec b0 b :
  wf b0 -> objects b = objects b0 -> offset b0 <= offset b -> nested b = true ->
  exists o b',
    EndObject b = Ok (o, b') /\ grows b0 b' /\ 0 < o <= offset b' /\
    lookup o (objects b') = Some (Table (slots b)).
Proof.
  intros Hwf Hobj Hoff Hn. unfold EndObject. rewrite Hn.
  set (o := offset b + 4).
  assert (Hwfb : wf b).
  { destruct Hwf as [H0 Hk]. unfold wf. rewrite Hobj.
    split; [lia|]. intros o' x Hx. specialize (Hk _ _ Hx). lia. }
  assert (Ho : offset b < o) by (unfold o; lia).
  destruct (file_spec b o (Table (slots b)) Hwfb Ho) as [Hwf' [Hext Hl]].
  exists o, (file o (Table (slots b)) false b).
  split; [reflexivity|]. destruct Hwf as [H0 _].
  split; [|split; [cbn [file offset]; unfold o; lia|exact Hl]].
  split; [exact Hwf'|]. split; [reflexivity|].
  split; [cbn [file offset]; unfold o; lia|]. now rewrite <- Hobj.
Qed.

(** ** Reading is stable when the buffer grows *)

Section ReadStable.
Variables buf buf' : Buffer.
Hypothesis Hext : extends (buf_objects buf) (buf_objects buf').

Lemma readString_stable o s : readString buf o = Ok s -> readString buf' o = Ok s.
Proof.
  unfold readString.
  destruct (lookup o (buf_objects buf)) as [[s0|v|t]|] eqn:E; try discriminate.
  intros Hs. now rewrite (Hext _ _ E).
Qed.

Lemma readVector_stable o v : readVector buf o = Ok v -> readVector buf' o = Ok v.
Proof.
  unfold readVector.
  destruct (lookup o (buf_objects buf)) as [[s0|v0|t]|] eqn:E; try discriminate.
  intros Hs. now rewrite (Hext _ _ E).
Qed.

Lemma readTable_stable o t : readTable buf o = Ok t -> readTable buf' o = Ok t.
Proof.
  unfold readTable.
  destruct (lookup o (buf_objects buf)) as [[s0|v0|t0]|] eqn:E; try discriminate.
  intros Hs. now rewrite (Hext _ _ E).
Qed.

Lemma mapM_stable {A B} (f g : A -> outcome B) :
  (forall a x, f a = Ok x -> g a = Ok x) ->
  forall l xs, mapM f l = Ok xs -> mapM g l = Ok xs.
Proof.
  intros Hfg. induction l as [|a l IH]; intros xs; cbn [mapM]; [auto|].
  destruct (f a) as [x| |] eqn:Ea; try discriminate. cbn [obind].
  destruct (mapM f l) as [xs'| |] eqn:El; try discriminate. cbn [obind].
  intros Hxs. rewrite (Hfg _ _ Ea). cbn [obind].
  now rewrite (IH _ eq_refl).
Qed.

Lemma readStringField_stable t slot s :
  readStringField buf t slot = Ok s -> readStringField buf' t slot = Ok s.
Proof.
  unfold readStringField. destruct (offsetField t slot); [|auto].
  apply readString_stable.
Qed.

Lemma readVectorField_stable {A} t slot (f g : UOffsetT -> outcome A) xs :
  (forall a x, f a = Ok x -> g a = Ok x) ->
  readVectorField buf t slot f = Ok xs -> readVectorField buf' t slot g = Ok xs.
Proof.
  intros Hfg. unfold readVectorField. destruct (offsetField t slot); [|auto].
  destruct (readVector buf u) as [v| |] eqn:Ev; try discriminate.
  cbn [obind]. rewrite (readVector_stable _ _ Ev). cbn [obind].
  now apply mapM_stable.
Qed.

Lemma readKeyValues_stable o r :
  readKeyValues buf o = Ok r -> readKeyValues buf' o = Ok r.
Proof.
  unfold readKeyValues.
  destruct (readTable buf o) as [t| |] eqn:Et; try discriminate.
  cbn [obind]. rewrite (readTable_stable _ _ Et). cbn [obind].
  destruct (readStringField buf t 0) as [key| |] eqn:Ek; try discriminate.
  cbn [obind]. rewrite (readStringField_stable _ _ _ Ek). cbn [obind].
  destruct (readVectorField buf t 1 (readString buf)) as [value| |] eqn:Ev;
    try discriminate.
  cbn [obind].
  rewrite (readVectorField_stable _ _ _ (readString buf') _ readString_stable Ev).
  auto.
Qed.

Lemma readSearchEntry_stable o e :
  readSearchEntry buf o = Ok e -> readSearchEntry buf' o = Ok e.
Proof.
  unfold readSearchEntry.
  destruct (readTable buf o) as [t| |] eqn:Et; try discriminate.
  cbn [obind]. rewrite (readTable_stable _ _ Et). cbn [obind].
  destruct (readStringField buf t 0) as [id| |] eqn:Ek; try discriminate.
  cbn [obind]. rewrite (readStringField_stable _ _ _ Ek). cbn [obind].
  destruct (readVectorField buf t 3 (readKeyValues buf)) as [tags| |] eqn:Ev;
    try discriminate.
  cbn [obind].
  rewrite (readVectorField_stable _ _ _ (readKeyValues buf') _
             readKeyValues_stable Ev).
  auto.
Qed.
End ReadStable.

Lemma mapM_Forall2 {A B} (f : A -> outcome B) l xs :
  Forall2 (fun a x => f a = Ok x) l xs -> mapM f l = Ok xs.
Proof.
  intros HF. induction HF as [|a x l xs Ha _ IH]; cbn [mapM]; [reflexivity|].
  now rewrite Ha, IH.
Qed.

(** ** The writer of the Tag Set *)

Section WriterFacts.
Context `{bytes.UnicodeTables}.

Lemma writeKeyValues_spec b k vs :
  wf b -> nested b = false ->
  exists o b',
    writeKeyValues b k vs = Ok (o, b') /\ grows b b' /\
    0 < o <= offset b' /\
    readKeyValues (snapshot b') o = Ok (kv_view (k, vs)).
Proof.
  intros Hwf Hn. unfold writeKeyValues.
  destruct (CreateByteString_spec b (bytes.ToLower k) Hwf Hn)
    as [ko [b1 [E1 [G1 [Hko Hlk]]]]].
  rewrite E1. cbn [obind].
  destruct (createStrings_spec vs b1 (proj1 G1) (proj1 (proj2 G1)))
    as [vos [b2 [E2 [G2 HFv]]]].
  rewrite E2. cbn [obind].
  assert (HFle : Forall (fun o => o <= offset b2) vos).
  { clear -HFv. induction HFv; constructor; [lia|assumption]. }
  destruct (vector_spec b2 vos (proj1 G2) (proj1 (proj2 G2)) HFle)
    as [vo [b3 [E3 [G3 [Hvo Hlv]]]]].
  unfold KeyValuesStartValueVector. cbv zeta in E3 |- *.
  unfold UOffsetT in *. revert E3.
  destruct (StartVector b2 4 (Z.of_nat (List.length vos)) 4) as [[o1 b2']| |];
    cbn [obind]; try (intros E3; discriminate E3).
  destruct (PrependAll b2' vos) as [b2''| |]; cbn [obind];
    try (intros E3; discriminate E3).
  intros E3. rewrite E3. cbn [obind].
  pose proof (grows_trans _ _ _ G1 (grows_trans _ _ _ G2 G3)) as G13.
  destruct G3 as [Hwf3 [Hn3 [Hoff3 Hext3]]].
  destruct G2 as [Hwf2 [Hn2 [Hoff2 Hext2]]].
  unfold KeyValuesStart, StartObject. rewrite Hn3. cbn [obind].
  unfold KeyValuesAddKey, KeyValuesAddValue.
  rewrite PrependUOffsetTSlot_spec by (cbn [offset]; lia). cbn [obind].
  rewrite PrependUOffsetTSlot_spec by (cbn [offset]; lia). cbn [obind].
  unfold KeyValuesEnd.
  set (b4 := mkBuilder _ _ _ _ _ _ _).
  destruct (EndObject_spec b3 b4 Hwf3 eq_refl) as [o [b5 [E5 [G5 [Ho Hlo]]]]];
    [unfold b4; cbn [offset]; lia|reflexivity|].
  rewrite E5. exists o, b5. split; [reflexivity|].
  split; [exact (grows_trans _ _ _ G13 G5)|]. split; [exact Ho|].
  destruct G5 as [_ [_ [_ Hext5]]].
  unfold readKeyValues, readTable. cbn [snapshot buf_objects].
  rewrite Hlo. cbn [obind slots b4].
  unfold readStringField, readVectorField, offsetField.
  cbn [lookup Z.eqb Pos.eqb].
  unfold readString at 1, readVector. cbn [snapshot buf_objects].
  rewrite (Hext5 _ _ (Hext3 _ _ (Hext2 _ _ Hlk))). cbn [obind].
  rewrite (Hext5 _ _ Hlv). cbn [obind].
  rewrite (mapM_Forall2 _ (rev vos) (rev vs)); [reflexivity|].
  apply Forall2_rev. eapply Forall2_impl; [|exact HFv].
  cbn beta. intros vo' v [_ Hl]. unfold readString.
  cbn [snapshot buf_objects].
  now rewrite (Hext5 _ _ (Hext3 _ _ Hl)).
Qed.
End WriterFacts.

Lemma Forall2_map_right {A B B'} (P : A -> B' -> Prop) (f : B -> B') l l' :
  Forall2 (fun a b => P a (f b)) l l' -> Forall2 P l (map f l').
Proof. intros HF. induction HF; cbn [map]; constructor; auto. Qed.

Section PageFacts.
Context `{bytes.UnicodeTables}.

Lemma writeAllKeyValues_spec s : forall b,
  wf b -> nested b = false ->
  exists os b',
    writeAllKeyValues b s = Ok (os, b') /\ grows b b' /\
    Forall2 (fun o e => 0 < o <= offset b' /\
                        readKeyValues (snapshot b') o = Ok (kv_view e)) os s.
Proof.
  induction s as [|[k vs] s IH]; intros b Hwf Hn; cbn [writeAllKeyValues].
  - exists [], b. split; [reflexivity|]. split; [now apply grows_refl|constructor].
  - destruct (writeKeyValues_spec b k vs Hwf Hn) as [o [b1 [E1 [G1 [Ho Hr]]]]].
    rewrite E1. cbn [obind].
    destruct (IH b1 (proj1 G1) (proj1 (proj2 G1))) as [os [b2 [E2 [G2 HF]]]].
    rewrite E2. cbn [obind].
    exists (o :: os), b2. split; [reflexivity|].
    split; [exact (grows_trans _ _ _ G1 G2)|].
    destruct G2 as [_ [_ [Hoff2 Hext2]]].
    constructor; [|exact HF]. split; [lia|].
    exact (readKeyValues_stable (snapshot b1) (snapshot b2) Hext2 _ _ Hr).
Qed.

(** The Tag Set is written as a vector that reads [tags_view s]. *)
Lemma SearchDataMap_WriteToBuilder_spec s b :
  wf b -> nested b = false ->
  exists o b',
    SearchDataMap_WriteToBuilder s b = Ok (o, b') /\ grows b b' /\
    0 < o <= offset b' /\
    forall t slot, offsetField t slot = Some o ->
      readVectorField (snapshot b') t slot (readKeyValues (snapshot b')) =
      Ok (tags_view s).
Proof.
  intros Hwf Hn. unfold SearchDataMap_WriteToBuilder.
  destruct (writeAllKeyValues_spec s b Hwf Hn) as [os [b1 [E1 [G1 HF]]]].
  rewrite E1. cbn [obind].
  assert (HFle : Forall (fun o => o <= offset b1) os).
  { clear -HF. induction HF; constructor; [lia|assumption]. }
  destruct (vector_spec b1 os (proj1 G1) (proj1 (proj2 G1)) HFle)
    as [vo [b2 [E2 [G2 [Hvo Hlv]]]]].
  unfold SearchEntryStartTagsVector. cbv zeta in E2 |- *.
  unfold UOffsetT in *. rewrite E2.
  exists vo, b2. split; [reflexivity|].
  split; [exact (grows_trans _ _ _ G1 G2)|]. split; [exact Hvo|].
  intros t slot Ht. unfold readVectorField. rewrite Ht.
  unfold readVector. cbn [snapshot buf_objects]. rewrite Hlv. cbn [obind].
  apply mapM_Forall2. unfold tags_view. apply Forall2_rev.
  apply Forall2_map_right. eapply Forall2_impl; [|exact HF].
  cbn beta. intros o e [_ Hr]. destruct G2 as [_ [_ [_ Hext2]]].
  exact (readKeyValues_stable (snapshot b1) (snapshot b2) Hext2 _ _ Hr).
Qed.

Lemma entry_view_setTags s :
  entry_view (match Tags_ s with
              | None => setTags s NewSearchDataMap
              | Some _ => s
              end) = entry_view s.
Proof. destruct s as [id [m|] st en]; reflexivity. Qed.

(** An entry is written as a table that reads [entry_view s]. *)
Lemma WriteToBuilder_spec s b :
  wf b -> nested b = false ->
  exists o s' b',
    WriteToBuilder s b = Ok (o, s', b') /\ grows b b' /\
    0 < o <= offset b' /\
    readSearchEntry (snapshot b') o = Ok (entry_view s).
Proof.
  intros Hwf Hn. rewrite <- entry_view_setTags. unfold WriteToBuilder.
  set (s1 := match Tags_ s with None => _ | Some _ => s end).
  destruct (CreateByteString_spec b (TraceID s1) Hwf Hn)
    as [io [b1 [E1 [G1 [Hio Hli]]]]].
  rewrite E1. cbn [obind].
  destruct (SearchDataMap_WriteToBuilder_spec (tagsOrNew s1) b1
              (proj1 G1) (proj1 (proj2 G1)))
    as [to [b2 [E2 [G2 [Hto Hrt]]]]].
  rewrite E2. cbn [obind].
  pose proof (grows_trans _ _ _ G1 G2) as G12.
  destruct G2 as [Hwf2 [Hn2 [Hoff2 Hext2]]].
  unfold SearchEntryStart, StartObject. rewrite Hn2. cbn [obind].
  unfold SearchEntryAddId.
  rewrite PrependUOffsetTSlot_spec by (cbn [offset]; lia). cbn [obind].
  unfold SearchEntryAddStartTimeUnixNano, SearchEntryAddEndTimeUnixNano,
    SearchEntryAddTags, SearchEntryEnd, PrependUint64Slot.
  destruct (StartTimeUnixNano s1 =? 0)%N eqn:Es;
    destruct (EndTimeUnixNano s1 =? 0)%N eqn:Ee; cbn [obind]; unfold Slot;
    cbn [objects offset nested finished vector slots root];
    (rewrite PrependUOffsetTSlot_spec by (cbn [offset]; lia));
    cbn [obind objects offset nested finished vector slots root];
    match goal with
    | |- context [EndObject ?b4] =>
        destruct (EndObject_spec b2 b4 Hwf2 eq_refl)
          as [o [b5 [E5 [G5 [Ho Hlo]]]]];
        [cbn [offset]; lia|reflexivity|];
        cbn [slots] in Hlo; rewrite E5
    end;
    cbn [obind]; exists o, s1, b5; (split; [reflexivity|]);
    (split; [exact (grows_trans _ _ _ G12 G5)|]); (split; [exact Ho|]);
    destruct G5 as [_ [_ [_ Hext5]]];
    unfold readSearchEntry, readTable; cbn [snapshot buf_objects];
    rewrite Hlo; cbn [obind];
    (rewrite (readVectorField_stable (snapshot b2) (snapshot b5) Hext5 _ 3
               (readKeyValues (snapshot b2)) (readKeyValues (snapshot b5))
               (tags_view (tagsOrNew s1))
               (readKeyValues_stable (snapshot b2) (snapshot b5) Hext5));
     [|apply Hrt; reflexivity]);
    unfold readStringField, offsetField, uint64Field;
    cbn [lookup Z.eqb Pos.eqb];
    unfold readString; cbn [snapshot buf_objects];
    rewrite (Hext5 _ _ (Hext2 _ _ Hli)); cbn [obind];
    unfold entry_view;
    try (apply N.eqb_eq in Es; rewrite Es);
    try (apply N.eqb_eq in Ee; rewrite Ee); reflexivity.
Qed.
End PageFacts.

(** ** The page builder *)

Section PageBuilderFacts.
Context `{bytes.UnicodeTables}.

Lemma page_inv_new : page_inv NewSearchPageBuilder [].
Proof.
  unfold page_inv, wf. cbn. repeat split; try lia; try discriminate.
  constructor.
Qed.

Lemma page_inv_reset b : page_inv (Reset b) [].
Proof. exact page_inv_new. Qed.

Lemma page_entries_stable b b' (os : list UOffsetT) views :
  offset b <= offset b' -> extends (objects b) (objects b') ->
  Forall2 (fun o v => 0 < o <= offset b /\
                      readSearchEntry (snapshot b) o = Ok v) os views ->
  Forall2 (fun o v => 0 < o <= offset b' /\
                      readSearchEntry (snapshot b') o = Ok v) os views.
Proof.
  intros Hoff Hext HF. eapply Forall2_impl; [|exact HF].
  cbn beta. intros o v [Ho Hr]. split; [lia|].
  exact (readSearchEntry_stable (snapshot b) (snapshot b') Hext _ _ Hr).
Qed.

(** [AddData] returns; it records the offset of the entry it wrote
    after those recorded before, and merges the tags of the entry. *)
Lemma AddData_spec b data views :
  page_inv b views ->
  exists n data' b',
    AddData b data = Ok (n, data', b') /\
    page_inv b' (views ++ [entry_view data]) /\
    allTags b' = mergeTags (allTags b) data.
Proof.
  intros [Hwf [Hn HF]]. unfold AddData.
  destruct (WriteToBuilder_spec data (builder b) Hwf Hn)
    as [o [data' [fb [E [G [Ho Hr]]]]]].
  rewrite E. cbn [obind].
  eexists _, data', _. split; [reflexivity|]. split; [|reflexivity].
  destruct G as [Hwf' [Hn' [Hoff Hext]]].
  unfold page_inv. cbn [builder pageEntries].
  split; [exact Hwf'|]. split; [exact Hn'|].
  apply Forall2_app.
  - now apply (page_entries_stable (builder b) fb).
  - constructor; [|constructor]. now split.
Qed.

Lemma AddAll_spec entries : forall b views,
  page_inv b views ->
  exists b',
    AddAll b entries = Ok b' /\
    page_inv b' (views ++ map entry_view entries) /\
    allTags b' = fold_left mergeTags entries (allTags b).
Proof.
  induction entries as [|data entries IH]; intros b views Hinv;
    cbn [AddAll map fold_left].
  - exists b. rewrite app_nil_r. auto.
  - destruct (AddData_spec b data views Hinv) as [n [data' [b1 [E [Hinv1 Ht]]]]].
    rewrite E. cbn [obind].
    destruct (IH b1 _ Hinv1) as [b2 [E2 [Hinv2 Ht2]]].
    exists b2. split; [exact E2|].
    rewrite <- app_assoc in Hinv2. split; [exact Hinv2|].
    now rewrite Ht2, Ht.
Qed.

(** [Finish] returns; the page it returns lists the entries in reverse
    of the order they were added, and the page-wide tags.  The page
    builder is left as it was, on a longer buffer. *)
Lemma Finish_spec b views :
  page_inv b views ->
  exists buf b',
    Finish b = Ok (buf, b') /\
    page_inv b' views /\
    allTags b' = allTags b /\ pageEntries b' = pageEntries b /\
    finished (builder b') = true /\
    GetRootAsSearchPage buf =
    Ok (mkSearchPage (rev views) (tags_view (allTags b))).
Proof.
  intros [Hwf [Hn HF]]. unfold Finish.
  assert (HFle : Forall (fun o => o <= offset (builder b)) (pageEntries b)).
  { clear -HF. induction HF; constructor; [lia|assumption]. }
  destruct (vector_spec (builder b) (pageEntries b) Hwf Hn HFle)
    as [vo [b1 [E1 [G1 [Hvo Hlv]]]]].
  unfold SearchPageStartEntriesVector. cbv zeta in E1 |- *.
  unfold UOffsetT in *. revert E1.
  match goal with
  | |- context [StartVector ?x ?e ?n ?a] =>
      destruct (StartVector x e n a) as [[o1 fb1]| |]
  end; cbn [obind]; try (intros E1; discriminate E1).
  destruct (PrependAll fb1 (pageEntries b)) as [fb2| |]; cbn [obind];
    try (intros E1; discriminate E1).
  intros E1. rewrite E1. cbn [obind].
  destruct (SearchDataMap_WriteToBuilder_spec (allTags b) b1
              (proj1 G1) (proj1 (proj2 G1)))
    as [to [b2 [E2 [G2 [Hto Hrt]]]]].
  rewrite E2. cbn [obind].
  pose proof (grows_trans _ _ _ G1 G2) as G12.
  destruct G1 as [Hwf1 [Hn1 [Hoff1 Hext1]]].
  destruct G2 as [Hwf2 [Hn2 [Hoff2 Hext2]]].
  unfold SearchPageStart, StartObject. rewrite Hn2. cbn [obind].
  unfold SearchPageAddEntries, SearchPageAddTags, SearchPageEnd.
  rewrite PrependUOffsetTSlot_spec by (cbn [offset]; lia). cbn [obind].
  rewrite PrependUOffsetTSlot_spec by (cbn [offset]; lia). cbn [obind].
  match goal with
  | |- context [EndObject ?b4] =>
      destruct (EndObject_spec b2 b4 Hwf2 eq_refl)
        as [batch [b5 [E5 [G5 [Hbatch Hlo]]]]];
      [cbn [offset]; lia|reflexivity|];
      cbn [slots] in Hlo; rewrite E5
  end.
  cbn [obind].
  pose proof (grows_trans _ _ _ G12 G5) as G15.
  destruct G5 as [Hwf5 [Hn5 [Hoff5 Hext5]]].
  unfold flatbuffers.Finish, PrependUOffsetT. rewrite Hn5.
  destruct (batch <=? offset b5) eqn:Eb; [|apply Z.leb_gt in Eb; lia].
  cbn [obind]. unfold FinishedBytes.
  cbn [objects offset nested finished vector slots root obind].
  eexists _, _. split; [reflexivity|].
  cbn [allTags pageEntries builder].
  destruct G15 as [_ [_ [Hoff15 Hext15]]].
  split; [|split; [reflexivity|split; [reflexivity|split; [reflexivity|]]]].
  - unfold page_inv. cbn [builder]. split; [|split; [reflexivity|]].
    + destruct Hwf5 as [H0 Hk]. unfold wf. cbn [offset objects].
      split; [lia|]. intros o x Hx. specialize (Hk _ _ Hx). lia.
    + eapply Forall2_impl; [|exact HF].
      cbn beta. intros o v [Ho Hr]. cbn [offset]. split; [lia|].
      exact (readSearchEntry_stable (snapshot (builder b))
               (mkBuffer (objects b5) (Some batch)) Hext15 _ _ Hr).
  - unfold GetRootAsSearchPage. cbn [buf_root].
    unfold readSearchPage, readTable. cbn [buf_objects].
    rewrite Hlo. cbn [obind].
    rewrite (readVectorField_stable (snapshot b2)
               (mkBuffer (objects b5) (Some batch)) Hext5 _ 1
               (readKeyValues (snapshot b2)) _ (tags_view (allTags b))
               (readKeyValues_stable (snapshot b2)
                  (mkBuffer (objects b5) (Some batch)) Hext5))
      by (apply Hrt; reflexivity).
    unfold readVectorField at 1, offsetField. cbn [lookup Z.eqb Pos.eqb].
    unfold readVector. cbn [buf_objects].
    rewrite (Hext5 _ _ (Hext2 _ _ Hlv)). cbn [obind].
    rewrite (mapM_Forall2 _ (rev (pageEntries b)) (rev views)); [reflexivity|].
    apply Forall2_rev. eapply Forall2_impl; [|exact HF].
    cbn beta. intros o v [_ Hr].
    exact (readSearchEntry_stable (snapshot (builder b))
             (mkBuffer (objects b5) (Some batch)) Hext15 _ _ Hr).
Qed.
End PageBuilderFacts.

(** ** The Tag Set: membership and order *)

Lemma str_lt_trans a b c : str_lt a b -> str_lt b c -> str_lt a c.
Proof.
  unfold str_lt. intros Hab Hbc.
  rewrite String.compare_antisym in Hab, Hbc |- *.
  destruct (String.compare b a) eqn:E1; try discriminate.
  destruct (String.compare c b) eqn:E2; try discriminate.
  now rewrite (string_compare_gt_trans _ _ _ E2 E1).
Qed.

Lemma str_lt_irrefl a : ~ str_lt a a.
Proof. unfold str_lt. now rewrite string_compare_refl. Qed.

Lemma str_gt_lt a b : String.compare a b = Gt -> str_lt b a.
Proof. unfold str_lt. intros Hg. now rewrite String.compare_antisym, Hg. Qed.

Lemma addValue_In vs v x : In x (addValue vs v) <-> x = v \/ In x vs.
Proof.
  induction vs as [|w vs IH]; cbn [addValue].
  - simpl. intuition.
  - destruct (String.compare v w) eqn:E.
    + apply String.compare_eq_iff in E. subst w. simpl. intuition.
    + simpl. intuition.
    + simpl. rewrite IH. intuition.
Qed.

Lemma has_pair_Add s k v k' v' :
  has_pair (SearchDataMap_Add s k v) k' v' <->
  (k' = k /\ v' = v) \/ has_pair s k' v'.
Proof.
  unfold has_pair. induction s as [|[k0 vs0] s IH]; cbn [SearchDataMap_Add].
  - split.
    + intros [vs [[E|[]] Hv]]. injection E as <- <-.
      destruct Hv as [<-|[]]. now left.
    + intros [[-> ->]|[vs [[] _]]]. exists [v]. simpl. auto.
  - destruct (String.compare k k0) eqn:E.
    + apply String.compare_eq_iff in E. subst k0. split.
      * intros [vs [[Eq|Hin] Hv]].
        -- injection Eq as <- <-. apply addValue_In in Hv.
           destruct Hv as [->|Hv]; [now left|right].
           exists vs0. simpl. auto.
        -- right. exists vs. simpl. auto.
      * intros [[-> ->]|[vs [[Eq|Hin] Hv]]].
        -- exists (addValue vs0 v). split; [now left|].
           apply addValue_In. now left.
        -- injection Eq as <- <-. exists (addValue vs0 v).
           split; [now left|]. apply addValue_In. now right.
        -- exists vs. simpl. auto.
    + split.
      * intros [vs [[Eq|Hin] Hv]].
        -- injection Eq as <- <-. destruct Hv as [<-|[]]. now left.
        -- right. now exists vs.
      * intros [[-> ->]|[vs [Hin Hv]]].
        -- exists [v]. simpl. auto.
        -- exists vs. simpl. auto.
    + split.
      * intros [vs [[Eq|Hin] Hv]].
        -- right. exists vs. simpl. auto.
        -- destruct (proj1 IH (ex_intro _ vs (conj Hin Hv)))
             as [Hl|[vs' [Hin' Hv']]]; [now left|right].
           exists vs'. simpl. auto.
      * intros [Heq|[vs [[Eq|Hin] Hv]]].
        -- destruct (proj2 IH (or_introl Heq)) as [vs' [Hin' Hv']].
           exists vs'. simpl. auto.
        -- exists vs. simpl. auto.
        -- destruct (proj2 IH (or_intror (ex_intro _ vs (conj Hin Hv))))
             as [vs' [Hin' Hv']].
           exists vs'. simpl. auto.
Qed.

Lemma pairs_In s k v : In (k, v) (SearchDataMap_pairs s) <-> has_pair s k v.
Proof.
  unfold SearchDataMap_pairs, has_pair. rewrite in_flat_map. split.
  - intros [[k0 vs] [Hin Hp]]. cbn [fst snd] in Hp.
    apply in_map_iff in Hp. destruct Hp as [v0 [E Hv]].
    injection E as -> ->. now exists vs.
  - intros [vs [Hin Hv]]. exists (k, vs). split; [exact Hin|].
    cbn [fst snd]. now apply in_map.
Qed.

Lemma Range_Add_has_pair tags all k v :
  has_pair (SearchDataMap_Range tags (fun k v all => SearchDataMap_Add all k v) all) k v <->
  has_pair all k v \/ has_pair tags k v.
Proof.
  unfold SearchDataMap_Range. rewrite <- (pairs_In tags).
  generalize (SearchDataMap_pairs tags) as ps. intros ps. revert all.
  induction ps as [|[k0 v0] ps IH]; intros all; cbn [fold_left fst snd].
  - simpl. intuition.
  - rewrite IH, has_pair_Add. simpl. split.
    + intros [[[-> ->]|Ha]|Hp]; auto.
    + intros [Ha|[E|Hp]]; auto. injection E as -> ->. auto.
Qed.

Lemma mergeTags_has_pair all data k v :
  has_pair (mergeTags all data) k v <->
  has_pair all k v \/ has_pair (tagsOrNew data) k v.
Proof.
  unfold mergeTags, tagsOrNew. destruct (Tags_ data) as [tags|].
  - apply Range_Add_has_pair.
  - unfold NewSearchDataMap, has_pair. simpl. split; [auto|].
    intros [Ha|[vs [[] _]]]. exact Ha.
Qed.

Lemma fold_mergeTags_has_pair entries : forall all k v,
  has_pair (fold_left mergeTags entries all) k v <->
  has_pair all k v \/ pair_of_entries entries k v.
Proof.
  unfold pair_of_entries.
  induction entries as [|data entries IH]; intros all k v; cbn [fold_left].
  - split; [auto|]. intros [Ha|[d [[] _]]]. exact Ha.
  - rewrite IH, mergeTags_has_pair. split.
    + intros [[Ha|Hd]|[d [Hin Hd]]]; auto.
      * right. exists data. simpl. auto.
      * right. exists d. simpl. auto.
    + intros [Ha|[d [[<-|Hin] Hd]]]; auto. right. now exists d.
Qed.

Lemma addValue_sorted vs v :
  StronglySorted str_lt vs -> StronglySorted str_lt (addValue vs v).
Proof.
  induction vs as [|w vs IH]; intros Hs; cbn [addValue].
  - repeat constructor.
  - apply StronglySorted_inv in Hs. destruct Hs as [Hs Hw].
    destruct (String.compare v w) eqn:E.
    + now constructor.
    + constructor; [now constructor|]. constructor; [exact E|].
      eapply Forall_impl; [|exact Hw]. intros x. now apply str_lt_trans.
    + constructor; [now apply IH|].
      apply Forall_forall. intros x Hx. apply addValue_In in Hx.
      destruct Hx as [->|Hx]; [now apply str_gt_lt|].
      rewrite Forall_forall in Hw. now apply Hw.
Qed.

Lemma Add_keys s k v x :
  In x (map fst (SearchDataMap_Add s k v)) -> x = k \/ In x (map fst s).
Proof.
  induction s as [|[k0 vs0] s IH]; cbn [SearchDataMap_Add].
  - simpl. intuition.
  - destruct (String.compare k k0); simpl; intuition.
Qed.

Lemma Add_sorted s k v :
  tagset_sorted s -> tagset_sorted (SearchDataMap_Add s k v).
Proof.
  unfold tagset_sorted.
  induction s as [|[k0 vs0] s IH]; intros [Hk Hv]; cbn [SearchDataMap_Add].
  - simpl. repeat constructor.
  - cbn [map fst] in Hk. apply StronglySorted_inv in Hk. destruct Hk as [Hk Hk0].
    inversion Hv as [|? ? Hv0 Hv']; subst. cbn [snd] in Hv0.
    destruct (String.compare k k0) eqn:E.
    + cbn [map fst]. split; [now constructor|].
      constructor; [now apply addValue_sorted|exact Hv'].
    + cbn [map fst]. split.
      * constructor; [now constructor|]. constructor; [exact E|].
        eapply Forall_impl; [|exact Hk0]. intros x. now apply str_lt_trans.
      * constructor; [repeat constructor|]. now constructor.
    + destruct (IH (conj Hk Hv')) as [Hk' Hv''].
      cbn [map fst]. split.
      * constructor; [exact Hk'|].
        apply Forall_forall. intros x Hx. apply Add_keys in Hx.
        destruct Hx as [->|Hx]; [now apply str_gt_lt|].
        rewrite Forall_forall in Hk0. now apply Hk0.
      * now constructor.
Qed.

Lemma sorted_NoDup l : StronglySorted str_lt l -> NoDup l.
Proof.
  induction 1 as [|a l Hs IH Ha]; constructor; [|exact IH].
  intros Hin. rewrite Forall_forall in Ha.
  exact (str_lt_irrefl a (Ha a Hin)).
Qed.

Lemma tagset_sorted_NoDup s :
  tagset_sorted s -> NoDup (SearchDataMap_pairs s).
Proof.
  unfold tagset_sorted, SearchDataMap_pairs.
  induction s as [|[k vs] s IH]; intros [Hk Hv]; cbn [flat_map fst snd].
  - constructor.
  - cbn [map fst] in Hk. apply StronglySorted_inv in Hk. destruct Hk as [Hk Hk0].
    inversion Hv as [|? ? Hv0 Hv']; subst. cbn [snd] in Hv0.
    apply NoDup_app.
    + apply NoDup_map_NoDup_ForallPairs; [|now apply sorted_NoDup].
      intros x y _ _ E. now injection E.
    + now apply IH.
    + intros [k1 v1] Hin1 Hin2.
      apply in_map_iff in Hin1. destruct Hin1 as [v0 [E _]].
      injection E as <- <-.
      apply in_flat_map in Hin2. destruct Hin2 as [[k2 vs2] [Hin2 Hp]].
      cbn [fst snd] in Hp. apply in_map_iff in Hp.
      destruct Hp as [v2 [E _]]. injection E as ->.
      rewrite Forall_forall in Hk0.
      apply (str_lt_irrefl k). apply Hk0.
      change k with (fst (k, vs2)). now apply in_map.
Qed.

Lemma mergeTags_sorted all data :
  tagset_sorted all -> tagset_sorted (mergeTags all data).
Proof.
  unfold mergeTags. destruct (Tags_ data) as [tags|]; [|auto].
  unfold SearchDataMap_Range.
  generalize (SearchDataMap_pairs tags) as ps. intros ps. revert all.
  induction ps as [|[k v] ps IH]; intros all Hs; cbn [fold_left]; [exact Hs|].
  apply IH. now apply Add_sorted.
Qed.

Lemma fold_mergeTags_sorted entries : forall all,
  tagset_sorted all -> tagset_sorted (fold_left mergeTags entries all).
Proof.
  induction entries as [|data entries IH]; intros all Hs; cbn [fold_left];
    [exact Hs|].
  apply IH. now apply mergeTags_sorted.
Qed.


(** * The claims on the page builder *)

(** C1 (as amended).  [Finish] prepends the recorded offsets in the order
    the entries were added, and a vector reads in reverse of its
    prepends: position [i] of the entries vector of the finished page
    yields entry [n - 1 - i] of the [n] entries added. *)
Theorem page_entries_read_in_reverse `{bytes.UnicodeTables}
    (entries : list SearchEntryMutable) :
  exists b buf b' page,
    AddAll NewSearchPageBuilder entries = Ok b /\
    Finish b = Ok (buf, b') /\
    GetRootAsSearchPage buf = Ok page /\
    sp_entries page = rev (map entry_view entries) /\
    forall i, (i < List.length entries)%nat ->
      nth_error (sp_entries page) i =
      nth_error (map entry_view entries) (List.length entries - 1 - i).
Proof.
  destruct (AddAll_spec entries NewSearchPageBuilder [] page_inv_new)
    as [b [Eadd [Hinv _]]].
  destruct (Finish_spec b _ Hinv) as [buf [b' [Efin [_ [_ [_ [_ Hpage]]]]]]].
  cbn [app] in Hpage.
  eexists b, buf, b', _. split; [exact Eadd|]. split; [exact Efin|].
  split; [exact Hpage|]. cbn [sp_entries]. split; [reflexivity|].
  intros i Hi. rewrite nth_error_rev, length_map.
  destruct (Nat.ltb_spec i (List.length entries)) as [_|Hge]; [|lia].
  f_equal. lia.
Qed.

Lemma page_entries_read_in_reverse_witness :
  exists b buf b' page,
    @AddAll asciiTables NewSearchPageBuilder [entry_first; entry_second] = Ok b /\
    @Finish asciiTables b = Ok (buf, b') /\
    GetRootAsSearchPage buf = Ok page /\
    nth_error (sp_entries page) 0 =
    nth_error (map (@entry_view asciiTables) [entry_first; entry_second]) 1.
Proof.
  destruct (@page_entries_read_in_reverse asciiTables [entry_first; entry_second])
    as [b [buf [b' [page [Eadd [Efin [Hpage [_ Hnth]]]]]]]].
  exists b, buf, b', page.
  split; [exact Eadd|]. split; [exact Efin|]. split; [exact Hpage|].
  exact (Hnth 0%nat (Nat.lt_0_succ 1)).
Defined.

(** Position 0 of the entries vector is the entry added last, not the one
    added first. *)
Lemma page_entries_not_in_order_added :
  (p <- @finished_page asciiTables NewSearchPageBuilder
          [entry_first; entry_second] ;;
   Ok (option_map se_id (nth_error (sp_entries p) 0))) =
    Ok (Some "second"%string) /\
  (p <- @finished_page asciiTables NewSearchPageBuilder
          [entry_first; entry_second] ;;
   Ok (option_map se_id (nth_error (sp_entries p) 0))) <>
    Ok (Some "first"%string).
Proof. split; [vm_compute; reflexivity|vm_compute; discriminate]. Qed.

(** C6.  After any sequence of [AddData] calls on a new page builder, the
    page-wide Tag Set holds exactly the pairs of the entries added, each
    once, and the finished page carries it as its tag vector.  With
    entries [{k:v1}] and [{k:v2}] the page lists both values under "k". *)
Theorem page_tags_are_union `{bytes.UnicodeTables}
    (entries : list SearchEntryMutable) :
  (exists b buf b' page,
     AddAll NewSearchPageBuilder entries = Ok b /\
     (forall k v, has_pair (allTags b) k v <-> pair_of_entries entries k v) /\
     NoDup (SearchDataMap_pairs (allTags b)) /\
     Finish b = Ok (buf, b') /\
     GetRootAsSearchPage buf = Ok page /\
     sp_tags page = tags_view (allTags b)) /\
  (p <- @finished_page asciiTables NewSearchPageBuilder
          [entry_first; entry_second] ;;
   Ok (sp_tags p)) = Ok [kv "k" ["v2"%string; "v1"%string]].
Proof.
  split; [|vm_compute; reflexivity].
  destruct (AddAll_spec entries NewSearchPageBuilder [] page_inv_new)
    as [b [Eadd [Hinv Htags]]].
  destruct (Finish_spec b _ Hinv) as [buf [b' [Efin [_ [_ [_ [_ Hpage]]]]]]].
  eexists b, buf, b', _. split; [exact Eadd|].
  cbn [allTags NewSearchPageBuilder] in Htags.
  split; [|split; [|split; [exact Efin|split; [exact Hpage|reflexivity]]]].
  - intros k v. rewrite Htags, fold_mergeTags_has_pair.
    split; [|auto]. intros [[vs [[] _]]|Hp]. exact Hp.
  - rewrite Htags. apply tagset_sorted_NoDup, fold_mergeTags_sorted.
    split; constructor.
Qed.

(** C8.  [Reset] empties the entry-offset list and the page-wide Tag Set,
    whatever the page builder went through before; entries added
    afterwards finish into a page that holds them and their tags and
    nothing else. *)
Theorem reset_starts_a_new_page `{bytes.UnicodeTables}
    (b : SearchPageBuilder) (entries : list SearchEntryMutable) :
  pageEntries (Reset b) = [] /\
  allTags (Reset b) = NewSearchDataMap /\
  (exists b1 buf b2,
     AddAll (Reset b) entries = Ok b1 /\
     Finish b1 = Ok (buf, b2) /\
     GetRootAsSearchPage buf =
       Ok (mkSearchPage (rev (map entry_view entries))
             (tags_view (allTags b1))) /\
     (forall k v, has_pair (allTags b1) k v <-> pair_of_entries entries k v)) /\
  (b <- @AddAll asciiTables NewSearchPageBuilder [entry_first] ;;
   '(_, b) <- @Finish asciiTables b ;;
   @finished_page asciiTables (Reset b) [entry_second]) =
    Ok (mkSearchPage [mkSearchEntry "second" 0 0 [kv "k" ["v2"%string]]]
          [kv "k" ["v2"%string]]).
Proof.
  split; [reflexivity|]. split; [reflexivity|].
  split; [|vm_compute; reflexivity].
  destruct (AddAll_spec entries (Reset b) [] (page_inv_reset b))
    as [b1 [Eadd [Hinv Htags]]].
  destruct (Finish_spec b1 _ Hinv) as [buf [b2 [Efin [_ [_ [_ [_ Hpage]]]]]]].
  exists b1, buf, b2. split; [exact Eadd|]. split; [exact Efin|].
  split; [exact Hpage|].
  intros k v. rewrite Htags, fold_mergeTags_has_pair.
  split; [|auto]. intros [[vs [[] _]]|Hp]. exact Hp.
Qed.

(** C9 (as amended).  Nothing detects a call after [Finish]: on a page
    builder that was finished and not reset, [AddData] returns normally
    and records its entry after the earlier ones, and [Finish] returns
    again, with a page that lists the entries added before and after the
    first [Finish]. *)
Theorem calls_after_Finish_return `{bytes.UnicodeTables}
    (before after : list SearchEntryMutable) :
  exists b1 buf1 b1' b2 buf2 b2',
    AddAll NewSearchPageBuilder before = Ok b1 /\
    Finish b1 = Ok (buf1, b1') /\
    finished (builder b1') = true /\
    AddAll b1' after = Ok b2 /\
    Finish b2 = Ok (buf2, b2') /\
    GetRootAsSearchPage buf2 =
      Ok (mkSearchPage (rev (map entry_view (before ++ after)))
            (tags_view (allTags b2))).
Proof.
  destruct (AddAll_spec before NewSearchPageBuilder [] page_inv_new)
    as [b1 [Eadd1 [Hinv1 _]]].
  destruct (Finish_spec b1 _ Hinv1)
    as [buf1 [b1' [Efin1 [Hinv1' [_ [_ [Hfinished _]]]]]]].
  destruct (AddAll_spec after b1' _ Hinv1') as [b2 [Eadd2 [Hinv2 _]]].
  destruct (Finish_spec b2 _ Hinv2) as [buf2 [b2' [Efin2 [_ [_ [_ [_ Hpage]]]]]]].
  exists b1, buf1, b1', b2, buf2, b2'.
  cbn [app] in Hpage. rewrite <- map_app in Hpage. auto 10.
Qed.

(** After [Finish], without [Reset], neither [AddData] nor a second
    [Finish] panics: the run ends with a page of both entries. *)
Lemma AddData_after_Finish_not_detected :
  @refinished_page asciiTables [entry_first] [entry_second] <> Panic /\
  @refinished_page asciiTables [entry_first] [entry_second] =
    Ok (mkSearchPage
          [mkSearchEntry "second" 0 0 [kv "k" ["v2"%string]];
           mkSearchEntry "first" 0 0 [kv "k" ["v1"%string]]]
          [kv "k" ["v2"%string; "v1"%string]]).
Proof. split; [vm_compute; discriminate|vm_compute; reflexivity]. Qed.

(** * Further properties *)

(** ** The bisection, whatever the comparator *)

Lemma midpoint_facts (i j : Z)
    (Hi : 0 <= i) (Hij : i < j) (Hj : j <= GoInt.max) :
  let h := GoInt.wrap (Z.shiftr (GoInt.to_uint (GoInt.add i j)) 1) in
  h = (i + j) / 2 /\ i <= h < j /\ GoInt.add h 1 = h + 1.
Proof.
  intros h. unfold h. rewrite midpoint by assumption.
  assert (Hh : i <= (i + j) / 2 < j).
  { split; [apply Z.div_le_lower_bound|apply Z.div_lt_upper_bound]; lia. }
  split; [reflexivity|]. split; [exact Hh|].
  unfold GoInt.add. apply wrap_small. unfold GoInt.max in Hj. lia.
Qed.

(** The midpoint is computed without overflow: for [0 <= i < j] within
    [int], [int(uint(i+j) >> 1)] is the mathematical midpoint, and it
    satisfies the comment [i <= h < j], also when [i + j] exceeds the
    largest [int]. *)
Theorem midpoint_in_range (i j : Z)
    (Hi : 0 <= i) (Hij : i < j) (Hj : j <= GoInt.max) :
  let h := GoInt.wrap (Z.shiftr (GoInt.to_uint (GoInt.add i j)) 1) in
  h = (i + j) / 2 /\ i <= h < j /\ GoInt.add h 1 = h + 1.
Proof. exact (midpoint_facts i j Hi Hij Hj). Qed.

Lemma midpoint_in_range_witness :
  let i := 2 ^ 62 + 5 in
  let j := GoInt.max in
  GoInt.max < i + j /\
  GoInt.wrap (Z.shiftr (GoInt.to_uint (GoInt.add i j)) 1) = (i + j) / 2.
Proof.
  intros i j. split; [vm_compute; reflexivity|].
  apply (midpoint_in_range i j); vm_compute; congruence.
Defined.

Lemma binarySearch_loop_sound {S : Type} (n : Z)
    (compare : Z -> S -> outcome (Z * S)) (Hn : n <= GoInt.max) fuel :
  forall i j st r st',
    0 <= i -> j <= n ->
    binarySearch_loop fuel compare i j st = Ok (r, st') ->
    (r = -1 /\ (j <= i -> st' = st)) \/
    (i <= r < j /\ exists st0, compare r st0 = Ok (0, st')).
Proof.
  induction fuel as [|fuel IH]; intros i j st r st' Hi Hj; simpl.
  - destruct (i <? j); [discriminate|].
    intros E. injection E as <- <-. now left.
  - destruct (i <? j) eqn:E.
    + apply Z.ltb_lt in E.
      destruct (midpoint_facts i j Hi E ltac:(lia)) as [Hmid [Hh Hh1]].
      cbv zeta in Hmid, Hh, Hh1. rewrite Hh1, Hmid. rewrite Hmid in Hh.
      set (h := (i + j) / 2) in *.
      destruct (compare h st) as [[c st1]| |] eqn:Ec; cbn [obind];
        try discriminate.
      destruct (c =? 0) eqn:E0.
      * apply Z.eqb_eq in E0. subst c. intros Er. injection Er as <- <-.
        right. split; [exact Hh|]. now exists st.
      * destruct (c =? -1) eqn:E1; [|destruct (c =? 1) eqn:E2].
        -- intros Er. apply IH in Er; try lia.
           destruct Er as [[-> _]|[Hr Hc]]; [left|right].
           ++ split; [reflexivity|lia].
           ++ split; [lia|exact Hc].
        -- intros Er. apply IH in Er; try lia.
           destruct Er as [[-> _]|[Hr Hc]]; [left|right].
           ++ split; [reflexivity|lia].
           ++ split; [lia|exact Hc].
        -- intros Er. apply IH in Er; try lia.
           destruct Er as [[-> _]|[Hr Hc]]; [left|right].
           ++ split; [reflexivity|lia].
           ++ split; [lia|exact Hc].
    + intros Er. injection Er as <- <-. now left.
Qed.

(** [binarySearch] never returns a wrong position: whatever the
    comparator does, a result other than -1 is a position of [0 .. n-1]
    at which the comparator reported 0, and the state returned is the one
    that probe left.  For [n <= 0] the result is -1 without a probe. *)
Theorem binarySearch_sound {S : Type} (n : Z)
    (compare : Z -> S -> outcome (Z * S)) (st : S) (fuel : nat) (r : Z) (st' : S)
    (Hn : n <= GoInt.max)
    (Hr : binarySearch fuel n compare st = Ok (r, st')) :
  (r = -1 \/ (0 <= r < n /\ exists st0, compare r st0 = Ok (0, st'))) /\
  (n <= 0 -> r = -1 /\ st' = st).
Proof.
  unfold binarySearch in Hr.
  destruct (binarySearch_loop_sound n compare Hn fuel 0 n st r st')
    as [[Hm Hst]|Hfound]; try lia; try assumption.
  - split; [now left|]. intros Hle. split; [exact Hm|now apply Hst].
  - split; [now right|]. intros Hle. lia.
Qed.

Lemma binarySearch_sound_witness :
  (1 = -1 \/
   (0 <= 1 < 3 /\
    exists st0, FindTag_compare entry_cba "b" 1 st0 =
                Ok (0, Some (kv "b" ["2"%string])))) /\
  (3 <= 0 -> 1 = -1 /\ Some (kv "b" ["2"%string]) = None).
Proof.
  apply (binarySearch_sound 3 (FindTag_compare entry_cba "b") None 3).
  - vm_compute. discriminate.
  - vm_compute. reflexivity.
Defined.

Lemma binarySearch_loop_log {S : Type} (n : Z)
    (compare : Z -> S -> outcome (Z * S)) (c : Z -> Z)
    (Hn : n <= GoInt.max)
    (Hcompare : forall i st, 0 <= i < n ->
                  exists st', compare i st = Ok (c i, st'))
    (Htri : tri_state n c) fuel :
  forall i j st,
    0 <= i -> j <= n -> j - i < 2 ^ Z.of_nat fuel ->
    exists r st', binarySearch_loop fuel compare i j st = Ok (r, st').
Proof.
  induction fuel as [|fuel IH]; intros i j st Hi Hj Hsz; simpl.
  - change (2 ^ Z.of_nat 0) with 1 in Hsz.
    destruct (i <? j) eqn:E; [apply Z.ltb_lt in E; lia|]. eauto.
  - destruct (i <? j) eqn:E; [|eauto].
    apply Z.ltb_lt in E.
    destruct (midpoint_facts i j Hi E ltac:(lia)) as [Hmid [Hh Hh1]].
    cbv zeta in Hmid, Hh, Hh1. rewrite Hh1, Hmid. rewrite Hmid in Hh.
    set (h := (i + j) / 2) in *.
    assert (Hpow : 2 ^ Z.of_nat (Datatypes.S fuel) = 2 * 2 ^ Z.of_nat fuel).
    { rewrite Nat2Z.inj_succ, Z.pow_succ_r by lia. reflexivity. }
    assert (Hhalf : 2 * h <= i + j < 2 * h + 2).
    { unfold h. pose proof (Z.div_mod (i + j) 2 ltac:(lia)).
      pose proof (Z.mod_pos_bound (i + j) 2 ltac:(lia)). lia. }
    destruct (Hcompare h st) as [st1 Ec]; [lia|]. rewrite Ec. cbn [obind].
    destruct (Htri h) as [Hc|[Hc|Hc]]; [lia| | |]; rewrite Hc; simpl.
    + apply IH; lia.
    + eauto.
    + apply IH; lia.
Qed.

(** The search is logarithmic: on a tri-state comparator the loop of
    [binarySearch] returns within [log2 n + 1] probes. *)
Theorem binarySearch_logarithmic {S : Type} (n : Z)
    (compare : Z -> S -> outcome (Z * S)) (c : Z -> Z) (st : S)
    (Hn : 0 <= n <= GoInt.max)
    (Hcompare : forall i st, 0 <= i < n ->
                  exists st', compare i st = Ok (c i, st'))
    (Htri : tri_state n c) :
  exists r st',
    binarySearch (Datatypes.S (Z.to_nat (Z.log2 n))) n compare st = Ok (r, st').
Proof.
  unfold binarySearch.
  apply (binarySearch_loop_log n compare c (proj2 Hn) Hcompare Htri); try lia.
  rewrite Nat2Z.inj_succ, Z2Nat.id by apply Z.log2_nonneg.
  destruct (Z.eq_dec n 0) as [->|Hne]; [reflexivity|].
  rewrite Z.sub_0_r. apply Z.log2_spec. lia.
Qed.

Lemma binarySearch_logarithmic_witness :
  exists r st',
    binarySearch (Datatypes.S (Z.to_nat (Z.log2 3))) 3
      (FindTag_compare entry_cba "a") None = Ok (r, st').
Proof.
  apply (binarySearch_logarithmic 3 (FindTag_compare entry_cba "a")
           (fun i => bytes.Compare (key_at entry_cba i) "a") None).
  - unfold GoInt.max. lia.
  - intros i st Hi. change 3 with (TagsLength entry_cba) in Hi.
    destruct (FindTag_compare_val entry_cba "a" i st Hi) as [st' [E _]].
    now exists st'.
  - intros i _. apply Compare_tri_state.
Defined.

(** The switch of [binarySearch] has no default case: when the
    comparator answers the first probe with a value other than 0, -1 and
    1, the range never changes and the loop does not return, whatever the
    fuel. *)
Theorem binarySearch_needs_tri_state {S : Type} (n : Z)
    (compare : Z -> S -> outcome (Z * S)) (st : S) (fuel : nat)
    (Hn : 0 < n <= GoInt.max)
    (Hbad : forall st, exists v st',
              compare (n / 2) st = Ok (v, st') /\ v <> 0 /\ v <> -1 /\ v <> 1) :
  binarySearch fuel n compare st = Timeout.
Proof.
  unfold binarySearch. revert st.
  induction fuel as [|fuel IH]; intros st; simpl.
  - destruct (0 <? n) eqn:E; [reflexivity|apply Z.ltb_ge in E; lia].
  - destruct (0 <? n) eqn:E; [|apply Z.ltb_ge in E; lia].
    rewrite midpoint by lia. cbn [Z.add].
    destruct (Hbad st) as [v [st' [Ec [H0 [H1 H2]]]]].
    rewrite Ec. cbn [obind].
    destruct (v =? 0) eqn:E0; [apply Z.eqb_eq in E0; lia|].
    destruct (v =? -1) eqn:E1; [apply Z.eqb_eq in E1; lia|].
    destruct (v =? 1) eqn:E2; [apply Z.eqb_eq in E2; lia|].
    apply IH.
Qed.

Lemma binarySearch_needs_tri_state_witness :
  binarySearch 100 3 (fun (_ : Z) (st : unit) => Ok (2, st)) tt = Timeout.
Proof.
  apply (binarySearch_needs_tri_state 3 (fun _ st => Ok (2, st)) tt 100).
  - unfold GoInt.max. lia.
  - intros st. exists 2, st. repeat split; discriminate.
Defined.

(** ** The mutable entry *)

Ltac time_cases :=
  repeat match goal with
         | |- context [(?a <? ?b)%N] => destruct (N.ltb_spec a b)
         | |- context [(?a =? ?b)%N] => destruct (N.eqb_spec a b)
         end;
  cbn [andb orb StartTimeUnixNano EndTimeUnixNano TraceID Tags_];
  try reflexivity; try lia.

(** The time range does not depend on the order in which timestamps are
    offered: the two setters commute with themselves and with each
    other, and offering a timestamp twice is offering it once. *)
Theorem time_setters_commute (s : SearchEntryMutable) (t u : N) :
  SetStartTimeUnixNano (SetStartTimeUnixNano s t) u =
    SetStartTimeUnixNano (SetStartTimeUnixNano s u) t /\
  SetEndTimeUnixNano (SetEndTimeUnixNano s t) u =
    SetEndTimeUnixNano (SetEndTimeUnixNano s u) t /\
  SetStartTimeUnixNano (SetEndTimeUnixNano s t) u =
    SetEndTimeUnixNano (SetStartTimeUnixNano s u) t /\
  SetStartTimeUnixNano (SetStartTimeUnixNano s t) t = SetStartTimeUnixNano s t /\
  SetEndTimeUnixNano (SetEndTimeUnixNano s t) t = SetEndTimeUnixNano s t.
Proof.
  destruct s as [id tags st en].
  unfold SetStartTimeUnixNano, SetEndTimeUnixNano.
  cbn [StartTimeUnixNano EndTimeUnixNano TraceID Tags_].
  repeat split.
  - destruct (N.ltb_spec 0 t), (N.ltb_spec 0 u), (N.eqb_spec st 0),
      (N.ltb_spec t st), (N.ltb_spec u st);
      cbn [andb orb StartTimeUnixNano EndTimeUnixNano TraceID Tags_];
      time_cases; f_equal; lia.
  - destruct (N.ltb_spec 0 t), (N.ltb_spec 0 u),
      (N.ltb_spec en t), (N.ltb_spec en u);
      cbn [andb orb StartTimeUnixNano EndTimeUnixNano TraceID Tags_];
      time_cases; f_equal; lia.
  - destruct (N.ltb_spec 0 t), (N.ltb_spec 0 u), (N.eqb_spec st 0),
      (N.ltb_spec u st), (N.ltb_spec en t);
      cbn [andb orb StartTimeUnixNano EndTimeUnixNano TraceID Tags_];
      time_cases.
  - destruct (N.ltb_spec 0 t), (N.eqb_spec st 0), (N.ltb_spec t st);
      cbn [andb orb StartTimeUnixNano EndTimeUnixNano TraceID Tags_];
      time_cases.
  - destruct (N.ltb_spec 0 t), (N.ltb_spec en t);
      cbn [andb orb StartTimeUnixNano EndTimeUnixNano TraceID Tags_];
      time_cases.
Qed.

Lemma do_call_widens s c :
  (StartTimeUnixNano s <> 0%N ->
   StartTimeUnixNano (do_call s c) <> 0%N /\
   (StartTimeUnixNano (do_call s c) <= StartTimeUnixNano s)%N) /\
  (EndTimeUnixNano s <= EndTimeUnixNano (do_call s c))%N /\
  TraceID (do_call s c) = TraceID s.
Proof.
  destruct s as [id tags st en].
  destruct c as [k v|t|t]; cbn [do_call].
  - unfold AddTag, setTags. cbn. repeat split; auto; lia.
  - unfold SetStartTimeUnixNano.
    cbn [StartTimeUnixNano EndTimeUnixNano TraceID Tags_].
    destruct (N.ltb_spec 0 t), (N.eqb_spec st 0), (N.ltb_spec t st);
      cbn [andb orb StartTimeUnixNano EndTimeUnixNano TraceID Tags_];
      repeat split; try lia.
  - unfold SetEndTimeUnixNano.
    cbn [StartTimeUnixNano EndTimeUnixNano TraceID Tags_].
    destruct (N.ltb_spec 0 t), (N.ltb_spec en t);
      cbn [andb orb StartTimeUnixNano EndTimeUnixNano TraceID Tags_];
      repeat split; try lia.
Qed.

(** Calls only widen the time range of an entry, from any state: a start
    time that is set stays set and never grows, the end time never
    shrinks, and the trace id is not touched. *)
Theorem time_range_only_widens (s : SearchEntryMutable) (cs : list call) :
  (StartTimeUnixNano s <> 0%N ->
   StartTimeUnixNano (do_calls s cs) <> 0%N /\
   (StartTimeUnixNano (do_calls s cs) <= StartTimeUnixNano s)%N) /\
  (EndTimeUnixNano s <= EndTimeUnixNano (do_calls s cs))%N /\
  TraceID (do_calls s cs) = TraceID s.
Proof.
  revert s. unfold do_calls.
  induction cs as [|c cs IH]; intros s; cbn [fold_left].
  - repeat split; auto; lia.
  - destruct (do_call_widens s c) as [Hs [He Hid]].
    destruct (IH (do_call s c)) as [Hs' [He' Hid']].
    split; [|split; [lia|congruence]].
    intros Hnz. destruct (Hs Hnz) as [Hnz1 Hle1].
    destruct (Hs' Hnz1) as [Hnz2 Hle2]. split; [exact Hnz2|lia].
Qed.

Lemma time_range_only_widens_witness :
  let s := mkSearchEntryMutable "id" None 7 9 in
  let cs := [CallSetStartTimeUnixNano 8; CallSetEndTimeUnixNano 3;
             CallSetStartTimeUnixNano 0; CallSetStartTimeUnixNano 4]%N in
  StartTimeUnixNano (do_calls s cs) <> 0%N /\
  (StartTimeUnixNano (do_calls s cs) <= 7)%N.
Proof.
  intros s cs.
  apply (proj1 (time_range_only_widens s cs)). discriminate.
Defined.

Lemma addValue_present vs v :
  StronglySorted str_lt vs -> In v vs -> addValue vs v = vs.
Proof.
  induction vs as [|w vs IH]; intros Hs Hin; [destruct Hin|].
  apply StronglySorted_inv in Hs. destruct Hs as [Hs Hw].
  rewrite Forall_forall in Hw. cbn [addValue].
  destruct (String.compare v w) eqn:E; [reflexivity| |].
  - exfalso. destruct Hin as [->|Hin].
    + now rewrite string_compare_refl in E.
    + exact (str_lt_irrefl v (str_lt_trans _ _ _ E (Hw v Hin))).
  - f_equal. apply IH; [exact Hs|].
    destruct Hin as [->|Hin]; [|exact Hin].
    now rewrite string_compare_refl in E.
Qed.

(** In a Tag Set in its order, adding a pair that is there changes
    nothing. *)
Lemma Add_present s k v :
  tagset_sorted s -> has_pair s k v -> SearchDataMap_Add s k v = s.
Proof.
  unfold tagset_sorted, has_pair.
  induction s as [|[k0 vs0] s IH]; intros [Hk Hv] [vs [Hin Hval]];
    [destruct Hin|].
  cbn [map fst] in Hk. apply StronglySorted_inv in Hk. destruct Hk as [Hk Hk0].
  rewrite Forall_forall in Hk0.
  inversion Hv as [|? ? Hv0 Hv']; subst. cbn [snd] in Hv0.
  assert (Htail : In (k, vs) s -> str_lt k0 k).
  { intros Hs. apply Hk0. change k with (fst (k, vs)). now apply in_map. }
  cbn [SearchDataMap_Add].
  destruct (String.compare k k0) eqn:E.
  - apply String.compare_eq_iff in E. subst k0.
    destruct Hin as [Eq|Hs].
    + injection Eq as <-. now rewrite addValue_present.
    + exfalso. exact (str_lt_irrefl k (Htail Hs)).
  - exfalso. destruct Hin as [Eq|Hs].
    + injection Eq as <- _. now rewrite string_compare_refl in E.
    + exact (str_lt_irrefl k (str_lt_trans _ _ _ E (Htail Hs))).
  - f_equal. apply IH; [now split|].
    destruct Hin as [Eq|Hs]; [|now exists vs].
    injection Eq as <- _. now rewrite string_compare_refl in E.
Qed.

(** What a run of calls builds: the pairs the entry had and those added,
    in the order of the Tag Set, which is in place once a tag was added. *)
Lemma do_calls_tagset cs : forall s,
  (forall k v,
     has_pair (tagsOrNew (do_calls s cs)) k v <->
     has_pair (tagsOrNew s) k v \/ In (CallAddTag k v) cs) /\
  (tagset_sorted (tagsOrNew s) -> tagset_sorted (tagsOrNew (do_calls s cs))) /\
  ((Tags_ s <> None \/ exists k v, In (CallAddTag k v) cs) ->
   Tags_ (do_calls s cs) <> None).
Proof.
  unfold do_calls.
  induction cs as [|c cs IH]; intros s; cbn [fold_left].
  - split; [|split; [auto|]].
    + intros k v. simpl. tauto.
    + intros [Hs|[k [v []]]]. exact Hs.
  - destruct (IH (do_call s c)) as [Hp [Hs Hsome]].
    destruct c as [k0 v0|t|t]; cbn [do_call] in *.
    + split; [|split].
      * intros k v. rewrite Hp.
        change (tagsOrNew (AddTag s k0 v0))
          with (SearchDataMap_Add (tagsOrNew s) k0 v0).
        rewrite has_pair_Add. split.
        -- intros [[[-> ->]|Hold]|Hin]; auto; right; [now left|now right].
        -- intros [Hold|[E|Hin]]; auto. injection E as -> ->. auto.
      * intros Hsorted. apply Hs.
        change (tagsOrNew (AddTag s k0 v0))
          with (SearchDataMap_Add (tagsOrNew s) k0 v0).
        now apply Add_sorted.
      * intros _. apply Hsome. left. discriminate.
    + assert (Ht : Tags_ (SetStartTimeUnixNano s t) = Tags_ s)
        by (unfold SetStartTimeUnixNano; now destruct ((0 <? t) && _)%N).
      unfold tagsOrNew in *. rewrite Ht in *.
      split; [|split; [exact Hs|]].
      * intros k v. rewrite Hp. split.
        -- intros [Hold|Hin]; auto. right. now right.
        -- intros [Hold|[E|Hin]]; auto. discriminate.
      * intros [Hsm|[k [v [E|Hin]]]]; [auto|discriminate|].
        apply Hsome. right. now exists k, v.
    + assert (Ht : Tags_ (SetEndTimeUnixNano s t) = Tags_ s)
        by (unfold SetEndTimeUnixNano; now destruct ((0 <? t) && _)%N).
      unfold tagsOrNew in *. rewrite Ht in *.
      split; [|split; [exact Hs|]].
      * intros k v. rewrite Hp. split.
        -- intros [Hold|Hin]; auto. right. now right.
        -- intros [Hold|[E|Hin]]; auto. discriminate.
      * intros [Hsm|[k [v [E|Hin]]]]; [auto|discriminate|].
        apply Hsome. right. now exists k, v.
Qed.

(** [AddTag] adds the unique pair, with no effect if the pair is already
    present.  On an entry built from a new one by any calls, [AddTag]
    leaves a Tag Set (allocated when nil) that holds the pair and the
    pairs added before, every pair once however often it was added; when
    the pair was added before, at any point, the call leaves the entry
    exactly as it was.  The trace id and the time range are never
    touched. *)
Theorem AddTag_adds_once (id : string) (cs : list call) (k v : string) :
  let s := do_calls (mkSearchEntryMutable id None 0 0) cs in
  Tags_ (AddTag s k v) <> None /\
  (forall k' v',
     has_pair (tagsOrNew (AddTag s k v)) k' v' <->
     (k' = k /\ v' = v) \/ In (CallAddTag k' v') cs) /\
  NoDup (SearchDataMap_pairs (tagsOrNew (AddTag s k v))) /\
  (In (CallAddTag k v) cs -> AddTag s k v = s) /\
  TraceID (AddTag s k v) = TraceID s /\
  StartTimeUnixNano (AddTag s k v) = StartTimeUnixNano s /\
  EndTimeUnixNano (AddTag s k v) = EndTimeUnixNano s.
Proof.
  intros s.
  destruct (do_calls_tagset cs (mkSearchEntryMutable id None 0 0))
    as [Hp [Hs Hsome]].
  fold s in Hp, Hs, Hsome. cbn [tagsOrNew Tags_ NewSearchDataMap] in Hp, Hs, Hsome.
  assert (Hsorted : tagset_sorted (tagsOrNew s))
    by (apply Hs; split; constructor).
  change (tagsOrNew (AddTag s k v)) with (SearchDataMap_Add (tagsOrNew s) k v).
  split; [discriminate|]. split; [|split; [|split; [|auto]]].
  - intros k' v'. rewrite has_pair_Add, Hp. split.
    + intros [E|[[vs [[] _]]|Hin]]; auto.
    + intros [E|Hin]; auto.
  - now apply tagset_sorted_NoDup, Add_sorted.
  - intros Hin.
    assert (Hpair : has_pair (tagsOrNew s) k v) by (apply Hp; now right).
    assert (Hnn : Tags_ s <> None) by (apply Hsome; right; now exists k, v).
    unfold AddTag. rewrite (Add_present _ _ _ Hsorted Hpair).
    unfold setTags, tagsOrNew. destruct s as [i [m|] st en]; [reflexivity|].
    now destruct Hnn.
Qed.

Lemma AddTag_adds_once_witness :
  let s := do_calls (mkSearchEntryMutable "id" None 0 0)
             [CallAddTag "a" "1"; CallAddTag "b" "2"] in
  AddTag s "a" "1" = s.
Proof.
  intros s.
  destruct (AddTag_adds_once "id" [CallAddTag "a" "1"; CallAddTag "b" "2"]
              "a" "1") as [_ [_ [_ [Hsame _]]]].
  apply Hsame. now left.
Defined.

(** ** Writing an entry and reading it back *)

Section EntryRoundTrip.
Context `{bytes.UnicodeTables}.

(** [WriteToBuilder] hands back the entry with a Tag Set in place of a
    nil one and nothing else changed. *)
Lemma WriteToBuilder_entry s b o s' b' :
  WriteToBuilder s b = Ok (o, s', b') ->
  Tags_ s' = Some (tagsOrNew s) /\ TraceID s' = TraceID s /\
  StartTimeUnixNano s' = StartTimeUnixNano s /\
  EndTimeUnixNano s' = EndTimeUnixNano s.
Proof.
  unfold WriteToBuilder. intros E.
  repeat match type of E with
         | obind ?m _ = Ok _ =>
             let x := fresh "x" in
             destruct m as [x| |]; cbn [obind] in E;
             [|discriminate E|discriminate E]
         | (let (_, _) := ?x in _) = Ok _ => destruct x
         end.
  injection E as _ <- _.
  destruct s as [id [m|] st en]; cbn; auto.
Qed.

Lemma wf_NewBuilder n : wf (NewBuilder n).
Proof. unfold wf. cbn. split; [lia|discriminate]. Qed.

(** Round trip of one entry: [ToBytes] returns, and what
    [NewSearchEntryFromBytes] -- or [Reset] on a view in use -- reads
    from its bytes is the entry: the same id and times, and one record
    per key of the Tag Set, last key first, with the key lower-cased.
    The entry itself comes back with a Tag Set in place of a nil one. *)
Theorem ToBytes_round_trip (s : SearchEntryMutable) :
  exists buf s',
    ToBytes s = Ok (buf, s') /\
    NewSearchEntryFromBytes buf = Ok (entry_view s) /\
    (forall old, SearchEntry_Reset old buf = Ok (entry_view s)) /\
    Tags_ s' = Some (tagsOrNew s) /\ TraceID s' = TraceID s /\
    StartTimeUnixNano s' = StartTimeUnixNano s /\
    EndTimeUnixNano s' = EndTimeUnixNano s.
Proof.
  destruct (WriteToBuilder_spec s (NewBuilder 2048) (wf_NewBuilder _) eq_refl)
    as [o [s' [b' [E [G [Ho Hr]]]]]].
  pose proof (WriteToBuilder_entry _ _ _ _ _ E) as Hs'.
  unfold ToBytes. rewrite E. cbn [obind].
  destruct G as [Hwf [Hn _]].
  unfold flatbuffers.Finish, PrependUOffsetT. rewrite Hn.
  destruct (o <=? offset b') eqn:Eo; [|apply Z.leb_gt in Eo; lia].
  cbn [obind]. unfold FinishedBytes.
  cbn [objects offset nested finished vector slots root obind].
  eexists _, s'. split; [reflexivity|].
  assert (Hread : readSearchEntry (mkBuffer (objects b') (Some o)) o =
                  Ok (entry_view s)).
  { apply (readSearchEntry_stable (snapshot b')); [apply extends_refl|exact Hr]. }
  split; [exact Hread|]. split; [intros old; exact Hread|exact Hs'].
Qed.

(** [AddData] is append-only: on a page builder that entries were added
    to, it records one more offset after those recorded, under which the
    new entry reads back; the offsets recorded before still read the
    entries they read before.  The caller's entry comes back with a Tag
    Set in place of a nil one, and an entry whose Tag Set was nil adds no
    tag to the page. *)
Theorem AddData_appends (entries : list SearchEntryMutable)
    (data : SearchEntryMutable) :
  exists b n data' b' o,
    AddAll NewSearchPageBuilder entries = Ok b /\
    AddData b data = Ok (n, data', b') /\
    List.length (pageEntries b) = List.length entries /\
    pageEntries b' = pageEntries b ++ [o] /\
    readSearchEntry (snapshot (builder b')) o = Ok (entry_view data) /\
    (forall old v,
       In old (pageEntries b) ->
       readSearchEntry (snapshot (builder b)) old = Ok v ->
       readSearchEntry (snapshot (builder b')) old = Ok v) /\
    Tags_ data' = Some (tagsOrNew data) /\
    (Tags_ data = None -> allTags b' = allTags b).
Proof.
  destruct (AddAll_spec entries NewSearchPageBuilder [] page_inv_new)
    as [b [Eadd [Hinv _]]].
  destruct Hinv as [Hwf [Hn HF]]. cbn [app] in HF.
  destruct (WriteToBuilder_spec data (builder b) Hwf Hn)
    as [o [data' [fb [E [G [Ho Hr]]]]]].
  pose proof (WriteToBuilder_entry _ _ _ _ _ E) as [Htags _].
  eexists b, _, data', _, o. split; [exact Eadd|].
  split; [unfold AddData; rewrite E; reflexivity|].
  cbn [pageEntries builder allTags].
  split; [apply Forall2_length in HF; now rewrite length_map in HF|].
  split; [reflexivity|]. split; [exact Hr|].
  destruct G as [_ [_ [_ Hext]]].
  split; [|split; [exact Htags|]].
  - intros old v _ Hv.
    exact (readSearchEntry_stable (snapshot (builder b)) (snapshot fb) Hext _ _ Hv).
  - intros Hnil. now rewrite Hnil.
Qed.

End EntryRoundTrip.

Lemma AddData_appends_witness :
  exists b n data' b' o,
    @AddAll asciiTables NewSearchPageBuilder [entry_first] = Ok b /\
    @AddData asciiTables b (mkSearchEntryMutable "third" None 0 0) =
      Ok (n, data', b') /\
    pageEntries b' = pageEntries b ++ [o] /\
    allTags b' = allTags b.
Proof.
  destruct (@AddData_appends asciiTables [entry_first]
              (mkSearchEntryMutable "third" None 0 0))
    as [b [n [data' [b' [o [Eadd [Edata [_ [Hp [_ [_ [_ Hnil]]]]]]]]]]]].
  exists b, n, data', b', o.
  split; [exact Eadd|]. split; [exact Edata|]. split; [exact Hp|].
  exact (Hnil eq_refl).
Defined.

(** ** What a miss leaves in the decode target *)




(** ** Tags that were added are found after encoding *)

Lemma StronglySorted_snoc {A} (R : A -> A -> Prop) l a :
  StronglySorted R l -> Forall (fun x => R x a) l -> StronglySorted R (l ++ [a]).
Proof.
  induction 1 as [|x l Hs IH Hx]; intros Ha; cbn [app].
  - repeat constructor.
  - inversion Ha as [|? ? Hxa Ha']; subst.
    constructor; [now apply IH|].
    apply Forall_app. split; [exact Hx|now constructor].
Qed.

Lemma StronglySorted_rev {A} (R : A -> A -> Prop) l :
  StronglySorted R l -> StronglySorted (fun a b => R b a) (rev l).
Proof.
  induction 1 as [|x l Hs IH Hx]; cbn [rev]; [constructor|].
  apply StronglySorted_snoc; [exact IH|].
  apply Forall_forall. intros y Hy. apply in_rev in Hy.
  rewrite Forall_forall in Hx. now apply Hx.
Qed.

Lemma descending_of_sorted l :
  StronglySorted (fun a b => str_lt (kv_key b) (kv_key a)) l ->
  descending l = true.
Proof.
  induction 1 as [|r l Hs IH Hr]; [reflexivity|].
  cbn [descending]. destruct l as [|r' l]; [reflexivity|].
  rewrite IH, andb_true_r. apply Z.eqb_eq.
  inversion Hr as [|? ? Hrr' _]; subst. unfold str_lt in Hrr'.
  unfold bytes.Compare. now rewrite String.compare_antisym, Hrr'.
Qed.

Section EncodedTags.
Context `{bytes.UnicodeTables}.

Lemma In_tags_view s r :
  In r (tags_view s) <-> exists e, In e s /\ r = kv_view e.
Proof.
  unfold tags_view. rewrite <- in_rev, in_map_iff. split.
  - intros [e [<- Hin]]. now exists e.
  - intros [e [Hin ->]]. now exists e.
Qed.

(** Lower-case keys in ascending order are written as a vector that
    reads in strictly descending order. *)
Lemma tags_view_descending s :
  tagset_sorted s -> lower_keys s -> descending (tags_view s) = true.
Proof.
  intros [Hk _] Hl. apply descending_of_sorted. unfold tags_view.
  apply (StronglySorted_rev (fun a b => str_lt (kv_key a) (kv_key b))).
  unfold lower_keys in Hl.
  induction s as [|e s IH]; cbn [map]; [constructor|].
  cbn [map] in Hk. apply StronglySorted_inv in Hk. destruct Hk as [Hk Hke].
  inversion Hl as [|? ? Hle Hl']; subst.
  constructor; [now apply IH|].
  apply Forall_forall. intros r Hr. apply in_map_iff in Hr.
  destruct Hr as [e' [<- Hin']].
  rewrite Forall_forall in Hke, Hl'.
  unfold kv_view. cbn [kv_key]. rewrite Hle, (Hl' e' Hin').
  apply Hke. now apply in_map.
Qed.

Lemma has_tag_of_pairs {C : Type} `{FBTagContainer C} (c : C) s k v :
  tag_vector c = tags_view s -> lower_keys s ->
  (has_tag_containing c k v <->
   exists val, has_pair s k val /\ substring_of v val).
Proof.
  intros Hc Hl. unfold has_tag_containing, has_pair, lower_keys in *.
  rewrite Forall_forall in Hl. rewrite Hc. split.
  - intros [r [val [Hin [Hk [Hval Hsub]]]]].
    apply In_tags_view in Hin. destruct Hin as [[k0 vs0] [Hin ->]].
    unfold kv_view in Hk, Hval. cbn [kv_key kv_value fst snd] in Hk, Hval.
    specialize (Hl _ Hin). cbn [fst] in Hl. rewrite Hl in Hk. subst k0.
    exists val. split; [|exact Hsub]. exists vs0. split; [exact Hin|].
    now apply in_rev.
  - intros [val [[vs [Hin Hval]] Hsub]].
    exists (kv_view (k, vs)), val. split; [|split; [|split]].
    + apply In_tags_view. now exists (k, vs).
    + unfold kv_view. cbn [kv_key fst]. exact (Hl _ Hin).
    + unfold kv_view. cbn [kv_value snd]. rewrite <- in_rev. exact Hval.
    + exact Hsub.
Qed.

(** Over the encoding of a Tag Set with lower-case keys, [ContainsTag]
    answers whether the Tag Set has a value under [k] that contains [v]. *)
Lemma encoded_ContainsTag {C : Type} `{FBTagContainer C} (c : C) s k v buffer :
  tag_vector c = tags_view s -> tagset_sorted s -> lower_keys s ->
  TagsLength c <= GoInt.max ->
  exists b buffer',
    ContainsTag c buffer k v = Ok (b, buffer') /\
    (b = true <-> exists val, has_pair s k val /\ substring_of v val).
Proof.
  intros Hc Hs Hl Hsize.
  assert (Hd : descending (tag_vector c) = true)
    by (rewrite Hc; now apply tags_view_descending).
  destruct (ContainsTag_returns c Hsize buffer k v)
    as [b [buf' [Ec [Htrue Hfalse]]]].
  exists b, buf'. split; [exact Ec|].
  rewrite <- (has_tag_of_pairs c s k v Hc Hl). split.
  - intros Hb. destruct (Htrue Hb) as [r [val [Hin [Hk [Hval Hcont]]]]].
    exists r, val. repeat split; auto. now apply Contains_iff.
  - intros [r [val [Hin [Hk [Hval Hsub]]]]].
    destruct b; [reflexivity|]. apply Contains_iff in Hsub.
    now rewrite (Hfalse eq_refl Hd r val Hin Hk Hval) in Hsub.
Qed.

Lemma lower_keys_Add s k v :
  lower_keys s -> bytes.ToLower k = k -> lower_keys (SearchDataMap_Add s k v).
Proof.
  unfold lower_keys. intros Hl Hk.
  induction s as [|[k0 vs0] s IH]; cbn [SearchDataMap_Add].
  - now repeat constructor.
  - inversion Hl as [|? ? Hl0 Hl']; subst.
    destruct (String.compare k k0); constructor; auto.
Qed.

Lemma length_Add s k v :
  (List.length (SearchDataMap_Add s k v) <= Datatypes.S (List.length s))%nat.
Proof.
  induction s as [|[k0 vs0] s IH]; cbn [SearchDataMap_Add]; [simpl; lia|].
  destruct (String.compare k k0); simpl; lia.
Qed.

(** What a run of calls builds from an entry whose keys are lower-case:
    the pairs it had and those added, in order, with lower-case keys. *)
Lemma do_calls_tags cs : forall s,
  (forall k v, In (CallAddTag k v) cs -> bytes.ToLower k = k) ->
  (forall k v,
     has_pair (tagsOrNew (do_calls s cs)) k v <->
     has_pair (tagsOrNew s) k v \/ In (CallAddTag k v) cs) /\
  (lower_sorted_tags s -> lower_sorted_tags (do_calls s cs)) /\
  (List.length (tagsOrNew (do_calls s cs)) <=
   List.length (tagsOrNew s) + List.length cs)%nat.
Proof.
  unfold do_calls.
  induction cs as [|c cs IH]; intros s Hlow; cbn [fold_left].
  - split; [|split; [auto|lia]]. intros k v. simpl. tauto.
  - assert (Hlow' : forall k v, In (CallAddTag k v) cs -> bytes.ToLower k = k)
      by (intros k v Hin; apply (Hlow k v); now right).
    destruct (IH (do_call s c) Hlow') as [Hp [Hs Hlen]].
    destruct c as [k0 v0|t|t].
    + cbn [do_call] in *. split; [|split].
      * intros k v. rewrite Hp.
        change (tagsOrNew (AddTag s k0 v0))
          with (SearchDataMap_Add (tagsOrNew s) k0 v0).
        rewrite has_pair_Add. split.
        -- intros [[[-> ->]|Hold]|Hin]; auto; right; [now left|now right].
        -- intros [Hold|[E|Hin]]; auto. injection E as -> ->. auto.
      * intros [Hsorted Hlower]. apply Hs. unfold lower_sorted_tags, AddTag, setTags.
        cbn [tagsOrNew Tags_]. split; [now apply Add_sorted|].
        apply lower_keys_Add; [exact Hlower|]. apply (Hlow k0 v0). now left.
      * change (tagsOrNew (AddTag s k0 v0))
          with (SearchDataMap_Add (tagsOrNew s) k0 v0) in Hlen.
        pose proof (length_Add (tagsOrNew s) k0 v0). cbn [List.length]. lia.
    + cbn [do_call] in *.
      assert (Ht : tagsOrNew (SetStartTimeUnixNano s t) = tagsOrNew s)
        by (unfold SetStartTimeUnixNano; now destruct ((0 <? t) && _)%N).
      unfold lower_sorted_tags in *. rewrite Ht in *.
      split; [|split; [exact Hs|cbn [List.length]; lia]].
      intros k v. rewrite Hp. split.
      * intros [Hold|Hin]; auto. right. now right.
      * intros [Hold|[E|Hin]]; auto. discriminate.
    + cbn [do_call] in *.
      assert (Ht : tagsOrNew (SetEndTimeUnixNano s t) = tagsOrNew s)
        by (unfold SetEndTimeUnixNano; now destruct ((0 <? t) && _)%N).
      unfold lower_sorted_tags in *. rewrite Ht in *.
      split; [|split; [exact Hs|cbn [List.length]; lia]].
      intros k v. rewrite Hp. split.
      * intros [Hold|Hin]; auto. right. now right.
      * intros [Hold|[E|Hin]]; auto. discriminate.
Qed.

(** Round trip of the tags: when the keys passed to [AddTag] are
    lower-case, then after [ToBytes] and [NewSearchEntryFromBytes],
    [Contains(k, v)] returns [true] exactly when some value added under
    [k] contains [v]. *)
Theorem added_tags_are_found (id : string) (cs : list call) (k v : string)
    (buffer : KeyValuesBuf)
    (Hlower : forall k' v', In (CallAddTag k' v') cs -> bytes.ToLower k' = k')
    (Hsize : Z.of_nat (List.length cs) <= GoInt.max) :
  exists buf s' e b buffer',
    ToBytes (do_calls (mkSearchEntryMutable id None 0 0) cs) = Ok (buf, s') /\
    NewSearchEntryFromBytes buf = Ok e /\
    Contains e k v buffer = Ok (b, buffer') /\
    (b = true <-> exists val, In (CallAddTag k val) cs /\ substring_of v val).
Proof.
  set (s := do_calls (mkSearchEntryMutable id None 0 0) cs).
  destruct (do_calls_tags cs (mkSearchEntryMutable id None 0 0) Hlower)
    as [Hp [Hs Hlen]].
  fold s in Hp, Hs, Hlen. cbn [tagsOrNew Tags_ NewSearchDataMap List.length] in *.
  destruct Hs as [Hsorted Hlow]; [split; [split|]; constructor|].
  destruct (WriteToBuilder_spec s (NewBuilder 2048)) as [o [s' [b' [E [G [Ho Hr]]]]]];
    [unfold wf; cbn; split; [lia|discriminate]|reflexivity|].
  assert (Hbytes : exists buf, ToBytes s = Ok (buf, s') /\
                     NewSearchEntryFromBytes buf = Ok (entry_view s)).
  { unfold ToBytes. rewrite E. cbn [obind]. destruct G as [Hwf [Hn _]].
    unfold flatbuffers.Finish, PrependUOffsetT. rewrite Hn.
    destruct (o <=? offset b') eqn:Eo; [|apply Z.leb_gt in Eo; lia].
    cbn [obind]. unfold FinishedBytes.
    cbn [objects offset nested finished vector slots root obind].
    eexists. split; [reflexivity|].
    apply (readSearchEntry_stable (snapshot b')); [apply extends_refl|exact Hr]. }
  destruct Hbytes as [buf [Eb Er]].
  destruct (encoded_ContainsTag (entry_view s) (tagsOrNew s) k v buffer)
    as [b [buffer' [Ec Hb]]]; auto.
  { unfold TagsLength, entry_view, tags_view. cbn [tag_vector SearchEntry_container se_tags].
    rewrite length_rev, length_map. lia. }
  exists buf, s', (entry_view s), b, buffer'.
  split; [exact Eb|]. split; [exact Er|]. split; [exact Ec|].
  rewrite Hb. split.
  - intros [val [Hpair Hsub]]. exists val. split; [|exact Hsub].
    apply Hp in Hpair. destruct Hpair as [[vs [[] _]]|Hin]. exact Hin.
  - intros [val [Hin Hsub]]. exists val. split; [|exact Hsub].
    apply Hp. now right.
Qed.

End EncodedTags.

Lemma added_tags_are_found_witness :
  exists buf s' e b buffer',
    @ToBytes asciiTables
      (do_calls (mkSearchEntryMutable "id" None 0 0)
         [CallAddTag "host" "example.com"]) = Ok (buf, s') /\
    NewSearchEntryFromBytes buf = Ok e /\
    Contains e "host" "example" None = Ok (b, buffer') /\
    (b = true <->
     exists val, In (CallAddTag "host" val) [CallAddTag "host" "example.com"] /\
                 substring_of "example" val).
Proof.
  apply (@added_tags_are_found asciiTables "id"
           [CallAddTag "host" "example.com"] "host" "example" None).
  - intros k' v' [E|[]]. injection E as <- <-. reflexivity.
  - vm_compute. discriminate.
Defined.

Section GetRoundTrip.
Context `{bytes.UnicodeTables}.

Lemma ToBytes_reads_entry_view s :
  exists buf s',
    ToBytes s = Ok (buf, s') /\
    NewSearchEntryFromBytes buf = Ok (entry_view s).
Proof.
  destruct (WriteToBuilder_spec s (NewBuilder 2048) (wf_NewBuilder _) eq_refl)
    as [o [s' [b' [E [G [Ho Hr]]]]]].
  unfold ToBytes. rewrite E. cbn [obind]. destruct G as [Hwf [Hn _]].
  unfold flatbuffers.Finish, PrependUOffsetT. rewrite Hn.
  destruct (o <=? offset b') eqn:Eo; [|apply Z.leb_gt in Eo; lia].
  cbn [obind]. unfold FinishedBytes.
  cbn [objects offset nested finished vector slots root obind].
  eexists _, s'. split; [reflexivity|].
  apply (readSearchEntry_stable (snapshot b')); [apply extends_refl|exact Hr].
Qed.

Lemma addValue_nonempty vs v : addValue vs v <> [].
Proof.
  destruct vs as [|w vs]; cbn [addValue]; [discriminate|].
  destruct (String.compare v w); discriminate.
Qed.

Lemma Add_nonempty s k v :
  Forall (fun e => snd e <> []) s ->
  Forall (fun e => snd e <> []) (SearchDataMap_Add s k v).
Proof.
  induction s as [|[k0 vs0] s IH]; intros Hs; cbn [SearchDataMap_Add].
  - constructor; [discriminate|constructor].
  - inversion Hs as [|? ? H0 Hs']; subst.
    destruct (String.compare k k0); constructor; auto.
    + cbn [snd]. apply addValue_nonempty.
    + cbn [snd]. discriminate.
Qed.

Lemma do_calls_nonempty cs : forall s,
  Forall (fun e => snd e <> []) (tagsOrNew s) ->
  Forall (fun e => snd e <> []) (tagsOrNew (do_calls s cs)).
Proof.
  unfold do_calls.
  induction cs as [|c cs IH]; intros s Hs; cbn [fold_left]; [exact Hs|].
  apply IH. destruct c as [k v|t|t]; cbn [do_call].
  - change (tagsOrNew (AddTag s k v)) with (SearchDataMap_Add (tagsOrNew s) k v).
    now apply Add_nonempty.
  - unfold SetStartTimeUnixNano. now destruct ((0 <? t) && _)%N.
  - unfold SetEndTimeUnixNano. now destruct ((0 <? t) && _)%N.
Qed.

(** Round trip through [Get]: when the keys passed to [AddTag] are
    lower-case, then after [ToBytes] and [NewSearchEntryFromBytes],
    [Get(k)] returns a value that was added under the lower-cased [k],
    whatever the case of [k], and the empty string when none was. *)
Theorem Get_finds_added_tag (id : string) (cs : list call) (k : string)
    (Hlower : forall k' v', In (CallAddTag k' v') cs -> bytes.ToLower k' = k') :
  exists buf s' e,
    ToBytes (do_calls (mkSearchEntryMutable id None 0 0) cs) = Ok (buf, s') /\
    NewSearchEntryFromBytes buf = Ok e /\
    ((exists val, In (CallAddTag (bytes.ToLower k) val) cs) ->
     exists val, Get e k = Ok val /\ In (CallAddTag (bytes.ToLower k) val) cs) /\
    ((forall val, ~ In (CallAddTag (bytes.ToLower k) val) cs) ->
     Get e k = Ok EmptyString).
Proof.
  set (s := do_calls (mkSearchEntryMutable id None 0 0) cs).
  destruct (do_calls_tags cs (mkSearchEntryMutable id None 0 0) Hlower)
    as [Hp [Hs _]].
  pose proof (do_calls_nonempty cs (mkSearchEntryMutable id None 0 0)
                (Forall_nil _)) as Hne.
  fold s in Hp, Hs, Hne. cbn [tagsOrNew Tags_ NewSearchDataMap] in Hp, Hs.
  destruct Hs as [_ Hlow]; [split; [split|]; constructor|].
  destruct (ToBytes_reads_entry_view s) as [buf [s' [Eb Er]]].
  exists buf, s', (entry_view s). split; [exact Eb|]. split; [exact Er|].
  rewrite Get_find. cbn [entry_view se_tags].
  assert (Hrec : forall r,
            In r (tags_view (tagsOrNew s)) -> kv_key r = bytes.ToLower k ->
            exists val, Value (Some r) 0 = Ok val /\
                        In (CallAddTag (bytes.ToLower k) val) cs).
  { intros r Hin Hk. apply In_tags_view in Hin.
    destruct Hin as [[k1 vs1] [Hin ->]].
    unfold lower_keys in Hlow. rewrite Forall_forall in Hlow, Hne.
    pose proof (Hlow _ Hin) as Hk1. pose proof (Hne _ Hin) as Hvs1.
    unfold kv_view in Hk |- *. cbn [fst snd kv_key] in Hk, Hk1, Hvs1 |- *.
    rewrite Hk1 in Hk. subst k1.
    unfold Value, nthZ. cbn [kv_value Z.ltb Z.compare Z.to_nat nth_error].
    destruct (rev vs1) as [|val vs'] eqn:Erev.
    - apply (f_equal (@rev string)) in Erev. rewrite rev_involutive in Erev.
      now destruct Hvs1.
    - exists val. split; [reflexivity|].
      assert (Hval : In val vs1) by (apply in_rev; rewrite Erev; now left).
      destruct (proj1 (Hp _ _) (ex_intro _ vs1 (conj Hin Hval)))
        as [[vs [[] _]]|Hc]. exact Hc. }
  destruct (find _ (tags_view (tagsOrNew s))) as [r|] eqn:Efind.
  - apply find_some in Efind. destruct Efind as [Hin Hk].
    apply Equal_eq in Hk. destruct (Hrec r Hin Hk) as [val [Hv Hc]].
    split.
    + intros _. now exists val.
    + intros Hnone. exfalso. exact (Hnone val Hc).
  - split; [|reflexivity].
    intros [val Hc]. exfalso.
    assert (Hpair : has_pair (tagsOrNew s) (bytes.ToLower k) val)
      by (apply Hp; now right).
    destruct Hpair as [vs [Hin Hval]].
    pose proof (find_none _ _ Efind (kv_view (bytes.ToLower k, vs))) as Hf.
    cbn beta in Hf. unfold kv_view in Hf. cbn [kv_key fst] in Hf.
    rewrite (Hlower _ _ Hc) in Hf.
    assert (bytes.Equal (bytes.ToLower k) (bytes.ToLower k) = true)
      by (now apply Equal_eq).
    rewrite Hf in H0; [discriminate|].
    apply In_tags_view. exists (bytes.ToLower k, vs). split; [exact Hin|].
    unfold kv_view. cbn [fst snd]. now rewrite (Hlower _ _ Hc).
Qed.

End GetRoundTrip.

Lemma Get_finds_added_tag_witness :
  exists buf s' e,
    @ToBytes asciiTables
      (do_calls (mkSearchEntryMutable "abc" None 0 0)
         [CallAddTag "http.method" "GET"]) = Ok (buf, s') /\
    NewSearchEntryFromBytes buf = Ok e /\
    exists val, @Get asciiTables e "HTTP.METHOD" = Ok val /\
                In (CallAddTag "http.method" val) [CallAddTag "http.method" "GET"].
Proof.
  destruct (@Get_finds_added_tag asciiTables "abc"
              [CallAddTag "http.method" "GET"] "HTTP.METHOD")
    as [buf [s' [e [Eb [Er [Hfound _]]]]]].
  - intros k' v' [E|[]]. injection E as <- <-. reflexivity.
  - exists buf, s', e. split; [exact Eb|]. split; [exact Er|].
    apply Hfound. exists "GET"%string. now left.
Defined.

(** ** The page-wide tags cover the tags of every entry *)

Section PageFilter.
Context `{bytes.UnicodeTables}.

Lemma mergeTags_lower all data :
  lower_keys all -> lower_keys (tagsOrNew data) -> lower_keys (mergeTags all data).
Proof.
  unfold mergeTags, tagsOrNew. destruct (Tags_ data) as [tags|]; [|auto].
  intros Hall Htags. unfold SearchDataMap_Range.
  assert (Hps : forall k v, In (k, v) (SearchDataMap_pairs tags) ->
                            bytes.ToLower k = k).
  { intros k v Hin. apply pairs_In in Hin. destruct Hin as [vs [Hin _]].
    unfold lower_keys in Htags. rewrite Forall_forall in Htags.
    exact (Htags _ Hin). }
  revert all Hall Hps. generalize (SearchDataMap_pairs tags) as ps.
  induction ps as [|[k v] ps IH]; intros all Hall Hps; cbn [fold_left fst snd];
    [exact Hall|].
  apply IH.
  - apply lower_keys_Add; [exact Hall|]. apply (Hps k v). now left.
  - intros k' v' Hin. apply (Hps k' v'). now right.
Qed.

Lemma fold_mergeTags_lower entries : forall all,
  lower_keys all -> Forall (fun d => lower_keys (tagsOrNew d)) entries ->
  lower_keys (fold_left mergeTags entries all).
Proof.
  induction entries as [|data entries IH]; intros all Hall Hent;
    cbn [fold_left]; [exact Hall|].
  inversion Hent as [|? ? Hd Hent']; subst.
  apply IH; [|exact Hent']. now apply mergeTags_lower.
Qed.

(** The page-wide tags can be used to reject a page: when the keys of
    the entries are lower-case, every entry of the finished page on which
    [ContainsTag(k, v)] answers [true] makes [ContainsTag(k, v)] answer
    [true] on the page itself. *)
Theorem page_tags_cover_entries (entries : list SearchEntryMutable)
    (k v : string) (buffer1 buffer2 : KeyValuesBuf)
    (Hlower : Forall (fun d => lower_keys (tagsOrNew d)) entries) :
  exists b buf b' page,
    AddAll NewSearchPageBuilder entries = Ok b /\
    Finish b = Ok (buf, b') /\
    GetRootAsSearchPage buf = Ok page /\
    forall e buffer',
      In e (sp_entries page) ->
      TagsLength e <= GoInt.max -> TagsLength page <= GoInt.max ->
      ContainsTag e buffer1 k v = Ok (true, buffer') ->
      exists buffer'', ContainsTag page buffer2 k v = Ok (true, buffer'').
Proof.
  destruct (AddAll_spec entries NewSearchPageBuilder [] page_inv_new)
    as [b [Eadd [Hinv Htags]]].
  destruct (Finish_spec b _ Hinv) as [buf [b' [Efin [_ [_ [_ [_ Hpage]]]]]]].
  cbn [app] in Hpage. cbn [allTags NewSearchPageBuilder] in Htags.
  eexists b, buf, b', _. split; [exact Eadd|]. split; [exact Efin|].
  split; [exact Hpage|].
  intros e buffer' Hin Hsize_e Hsize_p Hc.
  cbn [sp_entries] in Hin. apply in_rev, in_map_iff in Hin.
  destruct Hin as [d [<- Hd]].
  assert (Hsorted : tagset_sorted (allTags b)).
  { rewrite Htags. apply fold_mergeTags_sorted. split; constructor. }
  assert (Hlow : lower_keys (allTags b)).
  { rewrite Htags. apply fold_mergeTags_lower; [constructor|exact Hlower]. }
  destruct (@encoded_ContainsTag _ SearchPage SearchPage_container
              (mkSearchPage (rev (map entry_view entries)) (tags_view (allTags b)))
              (allTags b) k v buffer2 (eq_refl (tags_view (allTags b)))
              Hsorted Hlow Hsize_p)
    as [bp [buffer'' [Ep Hbp]]].
  assert (Hyes : bp = true).
  { apply Hbp.
    destruct (ContainsTag_returns (entry_view d) Hsize_e buffer1 k v)
      as [be [bufe [Ee [Htrue _]]]].
    rewrite Hc in Ee. injection Ee as <- <-.
    destruct (Htrue eq_refl) as [r [val [Hr [Hk [Hval Hcont]]]]].
    cbn [tag_vector SearchEntry_container entry_view se_tags] in Hr.
    apply In_tags_view in Hr. destruct Hr as [[k1 vs1] [Hin1 ->]].
    rewrite Forall_forall in Hlower. pose proof (Hlower d Hd) as Hld.
    unfold lower_keys in Hld. rewrite Forall_forall in Hld.
    pose proof (Hld _ Hin1) as Hk1.
    unfold kv_view in Hk, Hval. cbn [kv_key kv_value fst snd] in Hk, Hval, Hk1.
    rewrite Hk1 in Hk. subst k1.
    exists val. split; [|now apply Contains_iff].
    rewrite Htags. apply fold_mergeTags_has_pair. right.
    exists d. split; [exact Hd|]. exists vs1. split; [exact Hin1|].
    now apply in_rev. }
  subst bp. now exists buffer''.
Qed.

End PageFilter.

Lemma page_tags_cover_entries_witness :
  exists b buf b' page,
    @AddAll asciiTables NewSearchPageBuilder [entry_first; entry_second] = Ok b /\
    @Finish asciiTables b = Ok (buf, b') /\
    GetRootAsSearchPage buf = Ok page /\
    exists buffer'', ContainsTag page None "k" "v1" = Ok (true, buffer'').
Proof.
  destruct (@page_tags_cover_entries asciiTables [entry_first; entry_second]
              "k" "v1" None None)
    as [b [buf [b' [page [Eadd [Efin [Hpage Hcover]]]]]]].
  - repeat constructor.
  - exists b, buf, b', page.
    split; [exact Eadd|]. split; [exact Efin|]. split; [exact Hpage|].
    assert (Hp : @finished_page asciiTables NewSearchPageBuilder
                   [entry_first; entry_second] = Ok page).
    { unfold finished_page. rewrite Eadd. cbn [obind]. rewrite Efin. exact Hpage. }
    assert (Hval : @finished_page asciiTables NewSearchPageBuilder
                     [entry_first; entry_second] =
                   Ok (mkSearchPage
                         [mkSearchEntry "second" 0 0 [kv "k" ["v2"%string]];
                          mkSearchEntry "first" 0 0 [kv "k" ["v1"%string]]]
                         [kv "k" ["v2"%string; "v1"%string]]))
      by (vm_compute; reflexivity).
    rewrite Hp in Hval. injection Hval as ->.
    apply (Hcover (mkSearchEntry "first" 0 0 [kv "k" ["v1"%string]])
             (Some (kv "k" ["v1"%string]))).
    + right. now left.
    + vm_compute. discriminate.
    + vm_compute. discriminate.
    + vm_compute. reflexivity.
Defined.
